(** * TVidder: a verification development for [tvidder.py]

    The development follows the four stages of the program in order: the URL
    identifier extractor ([extract_tweet_id]), the metadata client
    ([get_tweet_data]), the variant selection and the streaming download
    (both inside [download_video]), and the entry point ([main]).

    Python values are embedded as follows.
    - A [str] is a list of Unicode code points ([N]); ASCII literals of the
      source are written [lit "..."].
    - The JSON objects of the API reply are records whose optional keys are
      [option] fields; a key the source indexes with [d['k']] raises
      [KeyError] when it is absent.  The values have the JSON types the API
      documents (strings, integers, lists of objects).
    - Side effects (console, network, file system, progress bar) are threaded
      through a state-and-exception monad [M]; what the outside world answers
      is read from an [environ] record. *)

From Stdlib Require Import ZArith NArith Ascii String.
From Stdlib.Strings Require Import Byte.
From stdpp Require Import gmap strings list.

Set Default Proof Using "Type".
Open Scope Z_scope.

(** ** Python strings *)

Abbreviation str := (list N).

(** The code points of an ASCII literal of the source. *)
Definition lit (s : string) : str := map N_of_ascii (list_ascii_of_string s).
Arguments lit : simpl never.

(** [s.startswith(p)] together with the remainder of [s]. *)
Fixpoint strip_prefix (p s : str) : option str :=
  match p, s with
  | [], _ => Some s
  | a :: p', b :: s' => if N.eqb a b then strip_prefix p' s' else None
  | _ :: _, [] => None
  end.

Fixpoint take_while (c : N → bool) (s : str) : str :=
  match s with
  | x :: s' => if c x then x :: take_while c s' else []
  | [] => []
  end.

Fixpoint drop_while (c : N → bool) (s : str) : str :=
  match s with
  | x :: s' => if c x then drop_while c s' else s
  | [] => []
  end.

(** ** Regular expressions: the fragment of [re] the source uses *)

Inductive regex : Type :=
  | RLit (l : str)                 (* literal text, [\.] included *)
  | RPlus (c : N → bool)           (* [\w+], [\d+]: greedy one-or-more of a class *)
  | RAlt (r1 r2 : regex)           (* [r1|r2], left alternative first *)
  | RCat (r1 r2 : regex)           (* concatenation *)
  | RGroup (r : regex).            (* capturing group number 1 *)

Section Matcher.
Context {A : Type}.

(** Greedy repetition with backtracking: the longest run is tried first,
    and one character is given back each time the continuation fails. *)
Fixpoint star_greedy (c : N → bool) (s : str) (k : str → option A) : option A :=
  match s with
  | x :: s' =>
      if c x then
        match star_greedy c s' k with
        | Some a => Some a
        | None => k s
        end
      else k s
  | [] => k s
  end.

Definition plus_greedy (c : N → bool) (s : str) (k : str → option A) : option A :=
  match s with
  | x :: s' => if c x then star_greedy c s' k else None
  | [] => None
  end.

(** [rmatch r s g k]: match [r] at the start of [s] with group 1 currently
    [g], then run the continuation [k] on the rest; the first success in
    the engine's priority order wins. *)
Fixpoint rmatch (r : regex) (s : str) (g : option str)
    (k : str → option str → option A) : option A :=
  match r with
  | RLit l =>
      match strip_prefix l s with
      | Some s' => k s' g
      | None => None
      end
  | RPlus c => plus_greedy c s (λ s', k s' g)
  | RAlt r1 r2 =>
      match rmatch r1 s g k with
      | Some a => Some a
      | None => rmatch r2 s g k
      end
  | RCat r1 r2 => rmatch r1 s g (λ s' g', rmatch r2 s' g' k)
  | RGroup r1 =>
      rmatch r1 s g (λ s' _, k s' (Some (take (length s - length s') s)))
  end.
End Matcher.

(** A match object, as far as the source looks at it: [match.group(1)]. *)
Definition re_match (r : regex) (s : str) : option (option str) :=
  rmatch r s None (λ _ g, Some g).

(** [re.search(pattern, s)]: the match at the leftmost position that has one. *)
Fixpoint re_search (r : regex) (s : str) : option (option str) :=
  match re_match r s with
  | Some m => Some m
  | None =>
      match s with
      | [] => None
      | _ :: s' => re_search r s'
      end
  end.

(** ** Exceptions

    Every exception the modelled operations can raise.  All of them derive
    from [Exception]; [JSONDecodeError] also derives from [ValueError]. *)

Inductive exn : Type :=
  | KeyError (key : str)       (* [d[key]] on a dict without [key] *)
  | ValueError (msg : string)  (* the missing credential; [int()] of a non-numeric header *)
  | JSONDecodeError            (* [response.json()] on a body that is not JSON *)
  | APIError (text : str)      (* [Exception(f"API request failed: {response.text}")] *)
  | RequestException           (* a transport failure inside [requests] *)
  | OSError.                   (* [mkdir], [open] or [write] refused by the system *)

(** [isinstance(e, Exception)] *)
Definition is_Exception (e : exn) : bool :=
  match e with
  | KeyError _ | ValueError _ | JSONDecodeError | APIError _
  | RequestException | OSError => true
  end.

(** [isinstance(e, ValueError)] *)
Definition is_ValueError (e : exn) : bool :=
  match e with
  | ValueError _ | JSONDecodeError => true
  | KeyError _ | APIError _ | RequestException | OSError => false
  end.

Inductive outcome (A : Type) : Type :=
  | Returns (a : A)
  | Raises (e : exn).
Arguments Returns {A} a.
Arguments Raises {A} e.

(** ** The API reply

    The dicts of the parsed reply, with the keys the source reads.  A key
    read through [.get] or guarded by [in] is optional; [m['type']] and
    [best_variant['url']] are unguarded and raise [KeyError] when absent. *)

Record variant : Type := {
  v_content_type : option str;   (* ['content_type'] *)
  v_bit_rate : option Z;         (* ['bit_rate'] *)
  v_url : option str             (* ['url'] *)
}.

Record media_obj : Type := {
  m_type : option str;                  (* ['type'] *)
  m_variants : option (list variant)    (* ['variants'] *)
}.

Record includes_obj : Type := {
  inc_media : option (list media_obj)   (* ['media'] *)
}.

Record tweet : Type := {
  tw_includes : option includes_obj     (* ['includes'] *)
}.

(** ** The outside world *)

(** What [requests.get] on the tweets endpoint answers. *)
Record api_reply : Type := {
  status_code : Z;
  text : str;
  json : option tweet     (* [None]: the body does not parse as JSON *)
}.

(** The [content-length] header as [int()] sees it. *)
Inductive header : Type :=
  | Numeric (n : Z)       (* text that [int()] accepts *)
  | Malformed.            (* text on which [int()] raises [ValueError] *)

(** What [requests.get(video_url, stream=True)] answers: the bytes the
    stream delivers, and whether it then breaks with a transport error. *)
Record video_reply : Type := {
  content_length : option header;
  body : list byte;
  broken : bool
}.

Record environ : Type := {
  getenv_token : option str;           (* [os.getenv('TWITTER_BEARER_TOKEN')] after [load_dotenv()] *)
  api_tweets : str → option api_reply; (* by tweet id; [None]: transport failure *)
  video : str → option video_reply;    (* by URL; [None]: transport failure *)
  strftime_now : str;                  (* [datetime.now().strftime("%Y%m%d_%H%M%S")] *)
  mkdir_refused : str → bool;          (* the system's verdict on creating a directory, *)
  open_refused : str → bool;           (* on opening a file for writing, *)
  write_refused : str → list byte → bool (* and on appending to a file with this content *)
}.

(** The text handed to [console.print]. *)
Inductive message : Type :=
  | InvalidURL                  (* "Error: Invalid URL" *)
  | FetchingTweetData           (* "Fetching tweet data..." *)
  | NoMediaFound                (* "Error: No media found in tweet" *)
  | NoVideoFound                (* "Error: No video found in tweet" *)
  | NoMP4Variants               (* "Error: No MP4 video variants found" *)
  | DownloadedTo (file : str)   (* f"Video downloaded to: {output_file}" *)
  | Error (e : exn)             (* f"Error: {str(e)}" *)
  | ConfigurationError (e : exn). (* f"Configuration Error: {str(e)}" *)

(** The observable actions of a run, in the order they happen. *)
Inductive event : Type :=
  | Print (m : message)                 (* [console.print] *)
  | Mkdir (p : str)                     (* [output_path.mkdir(parents=True, exist_ok=True)] *)
  | ApiGet (token tweet_id : str)       (* [requests.get] on [{api_base}/tweets/{tweet_id}] *)
  | VideoGet (url : str)                (* [requests.get(video_url, stream=True)] *)
  | AddTask                             (* [progress.add_task(..., total=100)] *)
  | Open (p : str)                      (* [open(output_file, 'wb')] *)
  | Write (p : str) (data : list byte)  (* [file.write(data)] *)
  | Update (completed : Z).             (* [progress.update(task, completed=...)] *)

Record world : Type := {
  dirs : gset str;                 (* the directories that exist *)
  files : gmap str (list byte);    (* the files that exist, with their content *)
  log : list event
}.

(** ** The monad of effects *)

Definition M (A : Type) : Type := world → outcome A * world.

Definition ret {A} (a : A) : M A := λ w, (Returns a, w).

Definition raise {A} (e : exn) : M A := λ w, (Raises e, w).

Definition bind {A B} (c : M A) (k : A → M B) : M B :=
  λ w, match c w with
       | (Returns a, w') => k a w'
       | (Raises e, w') => (Raises e, w')
       end.

Notation "x <- c ;; k" := (bind c (λ x, k))
  (at level 100, c at next level, right associativity).
Notation "c ;; k" := (bind c (λ _, k))
  (at level 100, right associativity).

Definition emit (e : event) : M unit :=
  λ w, (Returns (), {| dirs := dirs w; files := files w; log := log w ++ [e] |}).

(** [try: c  except Exception as e: h e] *)
Definition try_except {A} (c : M A) (h : exn → M A) : M A :=
  λ w, match c w with
       | (Raises e, w') => if is_Exception e then h e w' else (Raises e, w')
       | r => r
       end.

(** ** The program *)

Section TVidder.

(** The interpreter's Unicode database above the ASCII range: the code
    points of category Nd (what [\d] accepts) and the alphanumeric ones
    (what [\w] accepts besides the underscore). *)
Variable unicode_decimal : N → bool.
Variable unicode_alnum : N → bool.

Definition ascii_digit (c : N) : bool := ((48 <=? c) && (c <=? 57))%N.
Definition ascii_alpha (c : N) : bool :=
  (((65 <=? c) && (c <=? 90)) || ((97 <=? c) && (c <=? 122)))%N.

(** [\d] *)
Definition is_digit (c : N) : bool :=
  if (c <? 128)%N then ascii_digit c else unicode_decimal c.

(** [\w] *)
Definition is_word (c : N) : bool :=
  if (c <? 128)%N then ascii_digit c || ascii_alpha c || (c =? 95)%N
  else unicode_alnum c.

(** [(?:twitter|x)] *)
Definition host_re : regex := RAlt (RLit (lit "twitter")) (RLit (lit "x")).

(** [r'(?:twitter|x)\.com/\w+/status/(\d+)'] *)
Definition pattern_user : regex :=
  RCat host_re
    (RCat (RLit (lit ".com/"))
       (RCat (RPlus is_word)
          (RCat (RLit (lit "/status/")) (RGroup (RPlus is_digit))))).

(** [r'(?:twitter|x)\.com/i/web/status/(\d+)'] *)
Definition pattern_web : regex :=
  RCat host_re
    (RCat (RLit (lit ".com/i/web/status/")) (RGroup (RPlus is_digit))).

Definition patterns : list regex := [pattern_user; pattern_web].

(** The loop of [extract_tweet_id]: the first pattern that matches decides. *)
Fixpoint first_group (ps : list regex) (url : str) : option str :=
  match ps with
  | [] => None
  | p :: ps' =>
      match re_search p url with
      | Some m => m
      | None => first_group ps' url
      end
  end.

Definition extract_tweet_id (url : str) : option str :=
  first_group patterns url.

(** *** Construction: [TwitterDownloader.__init__] *)

Variable env : environ.

(** The fields of [self] that depend on the environment. *)
Record downloader : Type := {
  bearer_token : str
}.

Definition init : M downloader :=
  match getenv_token env with
  | None | Some [] =>
      raise (ValueError "TWITTER_BEARER_TOKEN environment variable is required")
  | Some token => ret {| bearer_token := token |}
  end.

(** *** The metadata client: [get_tweet_data] *)

Definition get_tweet_data (self : downloader) (tweet_id : str) : M tweet :=
  emit (ApiGet (bearer_token self) tweet_id);;
  match api_tweets env tweet_id with
  | None => raise RequestException
  | Some response =>
      if status_code response =? 200 then
        match json response with
        | Some data => ret data
        | None => raise JSONDecodeError
        end
      else raise (APIError (text response))
  end.

(** *** Variant selection (lines 82 to 101 of [download_video]) *)

(** [t in ['video', 'animated_gif']] *)
Definition is_video_type (t : str) : bool :=
  bool_decide (t = lit "video") || bool_decide (t = lit "animated_gif").

(** [next((m for m in media if m['type'] in [...]), None)] *)
Fixpoint next_video (media : list media_obj) : outcome (option media_obj) :=
  match media with
  | [] => Returns None
  | m :: rest =>
      match m_type m with
      | None => Raises (KeyError (lit "type"))
      | Some t => if is_video_type t then Returns (Some m) else next_video rest
      end
  end.

(** [v.get('content_type') == 'video/mp4'] *)
Definition is_mp4 (v : variant) : bool :=
  bool_decide (v_content_type v = Some (lit "video/mp4")).

(** [x.get('bit_rate', 0)] *)
Definition bit_rate_key (x : variant) : Z :=
  match v_bit_rate x with
  | Some b => b
  | None => 0
  end.

(** The scan of [max(items, key=key)] once a first item is held: a later
    item replaces the held one only when its key is strictly greater. *)
Fixpoint max_scan {A} (key : A → Z) (best : A) (items : list A) : A :=
  match items with
  | [] => best
  | x :: rest =>
      if key x >? key best then max_scan key x rest
      else max_scan key best rest
  end.

(** How the selection ends: with one of the three messages of the source,
    with an exception, or with the chosen resource URL. *)
Inductive selection : Type :=
  | NoMedia
  | NoVideo
  | NoVariants
  | Failed (e : exn)
  | Selected (video_url : str).

Definition select_variant (tweet_data : tweet) : selection :=
  match tw_includes tweet_data with
  | None => NoMedia
  | Some inc =>
      match inc_media inc with
      | None => NoMedia
      | Some media =>
          match next_video media with
          | Raises e => Failed e
          | Returns None => NoVideo
          | Returns (Some video_media) =>
              match m_variants video_media with
              | None => NoVideo
              | Some variants =>
                  match List.filter is_mp4 variants with
                  | [] => NoVariants
                  | v :: rest =>
                      let best_variant := max_scan bit_rate_key v rest in
                      match v_url best_variant with
                      | None => Failed (KeyError (lit "url"))
                      | Some video_url => Selected video_url
                      end
                  end
              end
          end
      end
  end.

(** *** File system and streaming *)

(** [Path(output_dir) / name] *)
Definition path_join (p name : str) : str := p ++ lit "/" ++ name.

(** [Path(p).mkdir(parents=True, exist_ok=True)]: unless the system refuses,
    [p] is a directory afterwards, whether or not it was one before. *)
Definition mkdir (p : str) : M unit :=
  emit (Mkdir p);;
  if mkdir_refused env p then raise OSError
  else λ w, (Returns (),
             {| dirs := {[p]} ∪ dirs w; files := files w; log := log w |}).

(** [open(p, 'wb')]: the file exists and is empty afterwards. *)
Definition file_open (p : str) : M unit :=
  emit (Open p);;
  if open_refused env p then raise OSError
  else λ w, (Returns (),
             {| dirs := dirs w; files := <[p := []]> (files w); log := log w |}).

(** [file.write(data)]: [data] is appended to what the file holds. *)
Definition file_write (p : str) (data : list byte) : M unit :=
  λ w, let old := default [] (files w !! p) in
       if write_refused env p old then (Raises OSError, w)
       else (Returns (),
             {| dirs := dirs w; files := <[p := old ++ data]> (files w);
                log := log w ++ [Write p data] |}).

Fixpoint chunks_of (fuel n : nat) (l : list byte) : list (list byte) :=
  match fuel with
  | O => []
  | S fuel' =>
      match l with
      | [] => []
      | _ :: _ => take n l :: chunks_of fuel' n (drop n l)
      end
  end.

(** The chunks [response.iter_content(chunk_size)] yields before the stream
    ends or breaks. *)
Definition iter_content (response : video_reply) (chunk_size : N)
    : list (list byte) :=
  chunks_of (length (body response)) (N.to_nat chunk_size) (body response).

(** [response.content] *)
Definition content (response : video_reply) : M (list byte) :=
  if broken response then raise RequestException else ret (body response).

(** [int(response.headers.get('content-length', 0))] *)
Definition total_size_of (response : video_reply) : M Z :=
  match content_length response with
  | None => ret 0
  | Some (Numeric n) => ret n
  | Some Malformed => raise (ValueError "invalid literal for int()")
  end.

(** [int(100 * downloaded / total_size)].  The true division of two ints
    is correctly rounded and [int()] truncates; as long as
    [100 * downloaded] stays below 2^53 (some 90 terabytes) the rounding
    cannot reach the next integer, and the result is the truncated exact
    quotient, which is what the model computes. *)
Definition percent (downloaded total_size : Z) : Z :=
  Z.quot (100 * downloaded) total_size.

(** The body of [for data in response.iter_content(chunk_size=8192)]. *)
Fixpoint write_chunks (file : str) (total_size downloaded : Z)
    (chunks : list (list byte)) : M unit :=
  match chunks with
  | [] => ret ()
  | data :: rest =>
      let downloaded := downloaded + Z.of_nat (length data) in
      file_write file data;;
      emit (Update (percent downloaded total_size));;
      write_chunks file total_size downloaded rest
  end.

(** Lines 116 to 127. *)
Definition stream_to_file (video_url output_file : str) : M unit :=
  emit (VideoGet video_url);;
  match video env video_url with
  | None => raise RequestException
  | Some response =>
      total_size <- total_size_of response;;
      file_open output_file;;
      if total_size =? 0 then
        data <- content response;;
        file_write output_file data
      else
        write_chunks output_file total_size 0 (iter_content response 8192%N);;
        if broken response then raise RequestException else ret ()
  end.

(** *** [download_video] *)

Definition output_name (tweet_id timestamp : str) : str :=
  lit "twitter_video_" ++ tweet_id ++ lit "_" ++ timestamp ++ lit ".mp4".

(** Lines 83 to 130: what follows the selection. *)
Definition deliver (tweet_id output_path : str) (chosen : selection) : M bool :=
  match chosen with
  | NoMedia => emit (Print NoMediaFound);; ret false
  | NoVideo => emit (Print NoVideoFound);; ret false
  | NoVariants => emit (Print NoMP4Variants);; ret false
  | Failed e => raise e
  | Selected video_url =>
      let timestamp := strftime_now env in
      let output_file := path_join output_path (output_name tweet_id timestamp) in
      emit AddTask;;
      stream_to_file video_url output_file;;
      emit (Print (DownloadedTo output_file));;
      ret true
  end.

(** The suite of the [try] statement. *)
Definition download_video_body (self : downloader) (url output_dir : str)
    : M bool :=
  match extract_tweet_id url with
  | None | Some [] =>
      emit (Print InvalidURL);;
      ret false
  | Some tweet_id =>
      let output_path := output_dir in
      mkdir output_path;;
      emit (Print FetchingTweetData);;
      tweet_data <- get_tweet_data self tweet_id;;
      deliver tweet_id output_path (select_variant tweet_data)
  end.

Definition download_video (self : downloader) (url output_dir : str) : M bool :=
  try_except (download_video_body self url output_dir)
    (λ e, emit (Print (Error e));; ret false).

(** *** [main] *)

(** How the process ends: [sys.exit(code)], or an exception nobody caught. *)
Inductive termination : Type :=
  | Exit (code : Z)
  | Uncaught (e : exn).

(** [main], from the parsed arguments on; [output] is [None] when [-o] was
    not given. *)
Definition main (url : str) (output : option str) : world → termination * world :=
  λ w,
    let on_error e w' :=
      if is_ValueError e then
        (Exit 1, {| dirs := dirs w'; files := files w';
                    log := log w' ++ [Print (ConfigurationError e)] |})
      else (Uncaught e, w') in
    match init w with
    | (Raises e, w1) => on_error e w1
    | (Returns downloader, w1) =>
        match download_video downloader url (default (lit "downloads") output) w1 with
        | (Raises e, w2) => on_error e w2
        | (Returns success, w2) => (Exit (if success then 0 else 1), w2)
        end
    end.

(** *** The two accepted shapes of a URL, stated on the string *)

Definition is_host (h : str) : Prop := h = lit "twitter" ∨ h = lit "x".

Definition all_of (c : N → bool) (s : str) : Prop := Forall (λ x, c x = true) s.

(** [post] does not go on with a character of class [c]. *)
Definition ends_run (c : N → bool) (post : str) : Prop :=
  match post with
  | [] => True
  | x :: _ => c x = false
  end.

(** [url] reads [pre], then [(twitter|x).com/<user>/status/<digits>], then
    [post]. *)
Definition user_shape (url pre digits post : str) : Prop :=
  ∃ h user,
    is_host h ∧ user ≠ [] ∧ all_of is_word user ∧
    digits ≠ [] ∧ all_of is_digit digits ∧
    url = pre ++ h ++ lit ".com/" ++ user ++ lit "/status/" ++ digits ++ post.

(** [url] reads [pre], then [(twitter|x).com/i/web/status/<digits>], then
    [post]. *)
Definition web_shape (url pre digits post : str) : Prop :=
  ∃ h,
    is_host h ∧ digits ≠ [] ∧ all_of is_digit digits ∧
    url = pre ++ h ++ lit ".com/i/web/status/" ++ digits ++ post.

(** No occurrence of the shape starts further left than [pre]. *)
Definition leftmost (shape : str → str → str → str → Prop) (url pre : str) : Prop :=
  ∀ pre' digits' post',
    shape url pre' digits' post' → (length pre ≤ length pre')%nat.

Definition has_shape (shape : str → str → str → str → Prop) (url : str) : Prop :=
  ∃ pre digits post, shape url pre digits post.

(** What the two patterns compute at one position, written with prefix
    tests and maximal runs. *)
Definition strip_host (s : str) : option str :=
  match strip_prefix (lit "twitter") s with
  | Some s' => Some s'
  | None => strip_prefix (lit "x") s
  end.

Definition digits_at (s : str) : option str :=
  match s with
  | y :: s' => if is_digit y then Some (y :: take_while is_digit s') else None
  | [] => None
  end.

Definition user_at (s : str) : option str :=
  match strip_host s with
  | None => None
  | Some s1 =>
      match strip_prefix (lit ".com/") s1 with
      | None => None
      | Some [] => None
      | Some (x :: s2) =>
          if is_word x then
            match strip_prefix (lit "/status/") (drop_while is_word s2) with
            | None => None
            | Some s3 => digits_at s3
            end
          else None
      end
  end.

Definition web_at (s : str) : option str :=
  match strip_host s with
  | None => None
  | Some s1 =>
      match strip_prefix (lit ".com/i/web/status/") s1 with
      | None => None
      | Some s2 => digits_at s2
      end
  end.

(** *** The premises of the selection, stated on the reply *)

(** [tweet_data['includes']['media']] is present and is [media]. *)
Definition has_media (tweet_data : tweet) (media : list media_obj) : Prop :=
  ∃ inc, tw_includes tweet_data = Some inc ∧ inc_media inc = Some media.

Definition typed_video (m : media_obj) : Prop :=
  m_type m = Some (lit "video") ∨ m_type m = Some (lit "animated_gif").

Definition typed_other (m : media_obj) : Prop :=
  ∃ t, m_type m = Some t ∧ t ≠ lit "video" ∧ t ≠ lit "animated_gif".

(** [m] is the first entry of [media] typed "video" or "animated_gif". *)
Definition first_video (media : list media_obj) (m : media_obj) : Prop :=
  ∃ before after,
    media = before ++ m :: after ∧ Forall typed_other before ∧ typed_video m.

(** The world once the run has reached the selection: the directory made,
    the message printed, the request sent. *)
Definition at_selection (self : downloader) (tweet_id output_dir : str)
    (w : world) : world :=
  {| dirs := {[output_dir]} ∪ dirs w;
     files := files w;
     log := log w ++ [Mkdir output_dir; Print FetchingTweetData;
                      ApiGet (bearer_token self) tweet_id] |}.

(** The API answers the request for [tweet_id] with status 200 and the
    parsed body [tweet_data]. *)
Definition api_answers (tweet_id : str) (tweet_data : tweet) : Prop :=
  ∃ response,
    api_tweets env tweet_id = Some response ∧
    status_code response = 200 ∧ json response = Some tweet_data.

Definition print (m : message) (w : world) : world :=
  {| dirs := dirs w; files := files w; log := log w ++ [Print m] |}.

(** *** What the claims about streaming expect, in their own words *)

(** The bytes received once chunk number [i] (from 0) has arrived. *)
Definition bytes_so_far (chunks : list (list byte)) (i : nat) : Z :=
  Z.of_nat (length (concat (take (S i) chunks))).

(** Each chunk is written, then the progress is set to
    [floor(100 * bytes_so_far / content_length)]. *)
Definition expected_events (file : str) (content_length : Z)
    (chunks : list (list byte)) : list event :=
  mjoin (imap (λ i data,
                 [Write file data;
                  Update ((100 * bytes_so_far chunks i) `div` content_length)])
           chunks).

Definition is_update (e : event) : Prop := ∃ completed, e = Update completed.

(** [w'] comes after [w]: the log has only been extended and no directory
    has been removed. *)
Definition follows (w w' : world) : Prop :=
  dirs w ⊆ dirs w' ∧ ∃ events, log w' = log w ++ events.

(** What [get_tweet_data] does with the reply once the request is sent. *)
Definition read_reply (tweet_id : str) : M tweet :=
  match api_tweets env tweet_id with
  | None => raise RequestException
  | Some response =>
      if status_code response =? 200 then
        match json response with
        | Some data => ret data
        | None => raise JSONDecodeError
        end
      else raise (APIError (text response))
  end.

(** *** Concrete inputs for the examples *)

(** A Unicode database with nothing above ASCII. *)
Definition ascii_only : N → bool := λ _, false.

Definition variant_A : variant :=
  {| v_content_type := Some (lit "video/mp4"); v_bit_rate := Some 600000;
     v_url := Some (lit "A") |}.
Definition variant_B : variant :=
  {| v_content_type := Some (lit "video/mp4"); v_bit_rate := Some 2176000;
     v_url := Some (lit "B") |}.
Definition variant_C : variant :=
  {| v_content_type := Some (lit "application/x-mpegURL");
     v_bit_rate := Some 0; v_url := Some (lit "C") |}.

Definition photo : media_obj :=
  {| m_type := Some (lit "photo"); m_variants := None |}.
Definition video_ABC : media_obj :=
  {| m_type := Some (lit "video");
     m_variants := Some [variant_A; variant_B; variant_C] |}.
Definition gif_bare : media_obj :=
  {| m_type := Some (lit "animated_gif"); m_variants := None |}.

Definition tweet_of (media : list media_obj) : tweet :=
  {| tw_includes := Some {| inc_media := Some media |} |}.
Definition tweet_bare : tweet := {| tw_includes := None |}.

(** A world where the token is set, the API answers [reply] and the video
    host answers [stream]; the file system refuses nothing. *)
Definition env_of (reply : option api_reply) (stream : option video_reply)
    : environ :=
  {| getenv_token := Some (lit "token");
     api_tweets := λ _, reply;
     video := λ _, stream;
     strftime_now := lit "20240101_120000";
     mkdir_refused := λ _, false;
     open_refused := λ _, false;
     write_refused := λ _ _, false |}.

Definition ok (data : tweet) : option api_reply :=
  Some {| status_code := 200; text := []; json := Some data |}.

Definition zeros (n : N) : list byte := replicate (N.to_nat n) x00.

Definition start : world := {| dirs := ∅; files := ∅; log := [] |}.

(** *** Parts of [download_video] named for the further properties *)

(** Lines 119 to 127: what [stream_to_file] does once the size is known. *)
Definition receive (response : video_reply) (output_file : str)
    (total_size : Z) : M unit :=
  file_open output_file;;
  if total_size =? 0 then
    data <- content response;;
    file_write output_file data
  else
    write_chunks output_file total_size 0 (iter_content response 8192%N);;
    if broken response then raise RequestException else ret ().

(** The world once [mkdir] has been attempted. *)
Definition at_mkdir (output_dir : str) (w : world) : world :=
  {| dirs := dirs w; files := files w; log := log w ++ [Mkdir output_dir] |}.


(** [c] appends only events that satisfy [P] to the log. *)
Definition emits {A} (P : event → Prop) (c : M A) : Prop :=
  ∀ w, ∃ events, log (c w).2 = log w ++ events ∧ Forall P events.

(** The events of the transfer into [file]. *)
Definition stream_event (file : str) (e : event) : Prop :=
  e = Open file ∨ (∃ data, e = Write file data) ∨ (∃ completed, e = Update completed).

(** The network requests among some events, in order. *)
Definition is_request (e : event) : bool :=
  match e with
  | ApiGet _ _ | VideoGet _ => true
  | Print _ | Mkdir _ | AddTask | Open _ | Write _ _ | Update _ => false
  end.

Definition requests (events : list event) : list event :=
  List.filter is_request events.

(** The events of [deliver], by the way the selection ended. *)
Definition deliver_events (file : str) (chosen : selection)
    (events : list event) : Prop :=
  match chosen with
  | NoMedia => events = [Print NoMediaFound]
  | NoVideo => events = [Print NoVideoFound]
  | NoVariants => events = [Print NoMP4Variants]
  | Failed _ => events = []
  | Selected video_url =>
      ∃ transfer ending,
        events = AddTask :: VideoGet video_url :: transfer ++ ending ∧
        Forall (stream_event file) transfer ∧
        (ending = [] ∨ ending = [Print (DownloadedTo file)])
  end.


(** What usually precedes the host in a link to a post. *)
Definition usual_prefixes : list str :=
  [ []; lit "https://"; lit "http://"; lit "www."; lit "https://www.";
    lit "http://www."; lit "https://mobile."; lit "mobile." ].

(** The values the progress bar was set to, in order. *)
Definition progress_of (events : list event) : list Z :=
  omap (λ e, match e with Update completed => Some completed | _ => None end)
    events.

(** More concrete inputs: a caller, a link, the default directory and the
    file a run on that link writes; a reply of ten bytes announced as such,
    and the world that serves it. *)
Definition caller : downloader := {| bearer_token := lit "token" |}.
Definition link : str := lit "https://x.com/user/status/42".
Definition downloads : str := lit "downloads".
Definition file_42 : str :=
  lit "downloads/twitter_video_42_20240101_120000.mp4".

Definition ten_bytes (length : option header) (breaks : bool) : video_reply :=
  {| content_length := length; body := zeros 10; broken := breaks |}.

Definition serving (stream : option video_reply) : environ :=
  env_of (ok (tweet_of [photo; video_ABC])) stream.

(** ** Lemmas on strings and on the matcher *)

Lemma strip_prefix_app (p s : str) : strip_prefix p (p ++ s) = Some s.
Proof.
  induction p as [|a p IH]; simpl; [by destruct s|].
  by rewrite N.eqb_refl.
Qed.

Lemma strip_prefix_Some (p s s' : str) :
  strip_prefix p s = Some s' → s = p ++ s'.
Proof.
  revert s. induction p as [|a p IH]; intros [|b s]; simpl; try congruence.
  destruct (N.eqb_spec a b) as [->|]; [|done].
  intros H. by rewrite (IH _ H).
Qed.

Lemma take_drop_while (c : N → bool) (s : str) :
  s = take_while c s ++ drop_while c s.
Proof.
  induction s as [|x s IH]; simpl; [done|].
  destruct (c x); simpl; congruence.
Qed.

Lemma take_while_all (c : N → bool) (s : str) : all_of c (take_while c s).
Proof.
  induction s as [|x s IH]; simpl; [constructor|].
  destruct (c x) eqn:E; by constructor.
Qed.

Lemma drop_while_ends (c : N → bool) (s : str) : ends_run c (drop_while c s).
Proof.
  induction s as [|x s IH]; simpl; [done|].
  by destruct (c x) eqn:E.
Qed.

Lemma take_while_app (c : N → bool) (d s : str) :
  all_of c d → take_while c (d ++ s) = d ++ take_while c s.
Proof.
  induction 1 as [|x d Hx _ IH]; simpl; [done|].
  by rewrite Hx, IH.
Qed.

Lemma drop_while_app (c : N → bool) (d s : str) :
  all_of c d → drop_while c (d ++ s) = drop_while c s.
Proof.
  induction 1 as [|x d Hx _ IH]; simpl; [done|].
  by rewrite Hx.
Qed.

Lemma drop_while_ended (c : N → bool) (s : str) :
  ends_run c s → drop_while c s = s.
Proof. destruct s as [|x s]; simpl; [done|]. by intros ->. Qed.

Lemma take_while_ended (c : N → bool) (s : str) :
  ends_run c s → take_while c s = [].
Proof. destruct s as [|x s]; simpl; [done|]. by intros ->. Qed.

Lemma take_while_length (c : N → bool) (s : str) :
  take (length s - length (drop_while c s)) s = take_while c s.
Proof.
  rewrite (take_drop_while c s) at 1 3.
  rewrite length_app.
  replace (_ + _ - _)%nat with (length (take_while c s) + 0)%nat by lia.
  rewrite take_app_add. simpl. by rewrite app_nil_r.
Qed.

(** A continuation that refuses every rest starting inside the run sees
    the rest after the whole run, and nothing else. *)
Lemma star_greedy_reject {A} (c : N → bool) (s : str) (k : str → option A) :
  (∀ x s', c x = true → k (x :: s') = None) →
  star_greedy c s k = k (drop_while c s).
Proof.
  intros Hk. induction s as [|x s IH]; simpl; [done|].
  destruct (c x) eqn:E; [|done].
  rewrite IH. destruct (k (drop_while c s)); [done|]. by apply Hk.
Qed.

(** A continuation that accepts the rest after the whole run decides. *)
Lemma star_greedy_accept {A} (c : N → bool) (s : str) (k : str → option A) a :
  k (drop_while c s) = Some a → star_greedy c s k = Some a.
Proof.
  induction s as [|x s IH]; simpl; [done|].
  destruct (c x) eqn:E; [|done].
  intros H. by rewrite (IH H).
Qed.

Lemma rmatch_host {A} (s : str) g (k : str → option str → option A) :
  rmatch host_re s g k =
  match strip_host s with
  | Some s' => k s' g
  | None => None
  end.
Proof.
  unfold host_re, strip_host. cbn [rmatch].
  destruct (strip_prefix (lit "twitter") s) as [s1|] eqn:E;
    [|by destruct (strip_prefix (lit "x") s)].
  destruct (k s1 g); [done|].
  apply strip_prefix_Some in E. by subst s.
Qed.

Lemma rmatch_digits (s : str) g :
  rmatch (RGroup (RPlus is_digit)) s g (λ _ g', Some g') = Some <$> digits_at s.
Proof.
  unfold digits_at. cbn [rmatch]. unfold plus_greedy.
  destruct s as [|y s]; [done|].
  destruct (is_digit y); [|done].
  erewrite star_greedy_accept; [|reflexivity].
  simpl. do 3 f_equal.
  pose proof (take_while_length is_digit s) as H.
  assert (length (drop_while is_digit s) ≤ length s)%nat.
  { rewrite (take_drop_while is_digit s) at 2. rewrite length_app. lia. }
  destruct (length (drop_while is_digit s)) as [|n] eqn:E.
  - simpl. f_equal. by rewrite <- H, Nat.sub_0_r.
  - replace (S (length s) - S n)%nat with (S (length s - S n)) by lia.
    simpl. by f_equal.
Qed.

Lemma re_match_user (s : str) : re_match pattern_user s = Some <$> user_at s.
Proof.
  unfold re_match, pattern_user, user_at.
  cbn [rmatch]. rewrite rmatch_host.
  destruct (strip_host s) as [s1|]; [|done].
  destruct (strip_prefix (lit ".com/") s1) as [[|x s2]|]; [done| |done].
  unfold plus_greedy. destruct (is_word x); [|done].
  rewrite star_greedy_reject.
  - destruct (strip_prefix (lit "/status/") (drop_while is_word s2)) as [s3|];
      [|done].
    exact (rmatch_digits s3 None).
  - intros c s' Hc.
    destruct (strip_prefix (lit "/status/") (c :: s')) as [s3|] eqn:E; [|done].
    apply strip_prefix_Some in E. injection E as -> _.
    by vm_compute in Hc.
Qed.

Lemma re_match_web (s : str) : re_match pattern_web s = Some <$> web_at s.
Proof.
  unfold re_match, pattern_web, web_at.
  cbn [rmatch]. rewrite rmatch_host.
  destruct (strip_host s) as [s1|]; [|done].
  destruct (strip_prefix (lit ".com/i/web/status/") s1) as [s2|]; [|done].
  exact (rmatch_digits s2 None).
Qed.

Lemma strip_host_app (h s : str) : is_host h → strip_host (h ++ s) = Some s.
Proof.
  unfold strip_host. intros [->| ->].
  - by rewrite strip_prefix_app.
  - destruct (strip_prefix (lit "twitter") (lit "x" ++ s)) as [s1|] eqn:E.
    + by apply strip_prefix_Some in E.
    + apply strip_prefix_app.
Qed.

Lemma strip_host_Some (s s' : str) :
  strip_host s = Some s' → ∃ h, is_host h ∧ s = h ++ s'.
Proof.
  unfold strip_host.
  destruct (strip_prefix (lit "twitter") s) as [s1|] eqn:E.
  - intros [= <-]. exists (lit "twitter"). split; [by left|].
    by apply strip_prefix_Some.
  - intros H. exists (lit "x"). split; [by right|].
    by apply strip_prefix_Some.
Qed.

Lemma digits_at_app (d post : str) :
  d ≠ [] → all_of is_digit d →
  digits_at (d ++ post) = Some (d ++ take_while is_digit post).
Proof.
  intros Hne Hd. destruct Hd as [|y d Hy Hd]; [done|].
  cbn [app digits_at]. rewrite Hy. by rewrite take_while_app.
Qed.

Lemma digits_at_Some (s d : str) :
  digits_at s = Some d →
  d ≠ [] ∧ all_of is_digit d ∧ ∃ post, s = d ++ post ∧ ends_run is_digit post.
Proof.
  unfold digits_at. destruct s as [|y s]; [done|].
  destruct (is_digit y) eqn:Hy; [|done].
  intros [= <-]. split; [done|]. split.
  - constructor; [done|]. apply take_while_all.
  - exists (drop_while is_digit s). split.
    + simpl. f_equal. apply take_drop_while.
    + apply drop_while_ends.
Qed.

Lemma user_at_shape (s d post : str) :
  user_shape s [] d post → user_at s = Some (d ++ take_while is_digit post).
Proof.
  intros (h & user & Hh & Hne & Hu & Hd & Hds & ->).
  unfold user_at. rewrite app_nil_l, strip_host_app by done.
  rewrite strip_prefix_app.
  destruct Hu as [|x user Hx Hu]; [done|].
  cbn [app]. rewrite Hx.
  rewrite drop_while_app by done.
  rewrite drop_while_ended by reflexivity.
  rewrite strip_prefix_app. by apply digits_at_app.
Qed.

Lemma user_at_Some (s d : str) :
  user_at s = Some d →
  ∃ post, user_shape s [] d post ∧ ends_run is_digit post.
Proof.
  unfold user_at.
  destruct (strip_host s) as [s1|] eqn:E1; [|done].
  destruct (strip_prefix (lit ".com/") s1) as [[|x s2]|] eqn:E2; try done.
  destruct (is_word x) eqn:Hx; [|done].
  destruct (strip_prefix (lit "/status/") (drop_while is_word s2))
    as [s3|] eqn:E3; [|done].
  intros (Hne & Hd & post & -> & Hpost)%digits_at_Some.
  apply strip_host_Some in E1 as (h & Hh & ->).
  apply strip_prefix_Some in E2 as ->.
  apply strip_prefix_Some in E3.
  exists post. split; [|done].
  exists h, (x :: take_while is_word s2).
  repeat split; try done.
  - constructor; [done|]. apply take_while_all.
  - rewrite app_nil_l. cbn [app]. do 3 f_equal.
    rewrite <- E3. apply take_drop_while.
Qed.

Lemma web_at_shape (s d post : str) :
  web_shape s [] d post → web_at s = Some (d ++ take_while is_digit post).
Proof.
  intros (h & Hh & Hd & Hds & ->).
  unfold web_at. rewrite app_nil_l, strip_host_app by done.
  rewrite strip_prefix_app. by apply digits_at_app.
Qed.

Lemma web_at_Some (s d : str) :
  web_at s = Some d →
  ∃ post, web_shape s [] d post ∧ ends_run is_digit post.
Proof.
  unfold web_at.
  destruct (strip_host s) as [s1|] eqn:E1; [|done].
  destruct (strip_prefix (lit ".com/i/web/status/") s1) as [s2|] eqn:E2;
    [|done].
  intros (Hne & Hd & post & -> & Hpost)%digits_at_Some.
  apply strip_host_Some in E1 as (h & Hh & ->).
  apply strip_prefix_Some in E2 as ->.
  exists post. split; [|done]. by exists h.
Qed.

(** [re.search] scans the start positions from left to right. *)
Lemma re_search_None (r : regex) (s : str) :
  re_search r s = None ↔ ∀ pre s', s = pre ++ s' → re_match r s' = None.
Proof.
  induction s as [|x s IH].
  - simpl. split.
    + destruct (re_match r []) eqn:E; [done|].
      intros _ pre s' Hs. symmetry in Hs.
      apply app_eq_nil in Hs as [_ ->]. done.
    + intros H. by rewrite (H [] []).
  - simpl. split.
    + destruct (re_match r (x :: s)) eqn:E; [done|].
      intros Hs [|y pre] s' Heq; simpl in Heq.
      * by subst s'.
      * injection Heq as <- ->. by apply (proj1 IH Hs pre).
    + intros H. rewrite (H [] (x :: s)) by done.
      apply IH. intros pre s' ->. by apply (H (x :: pre)).
Qed.

Lemma re_search_leftmost (r : regex) (pre s : str) m :
  (∀ p1 p2, pre = p1 ++ p2 → p2 ≠ [] → re_match r (p2 ++ s) = None) →
  re_match r s = Some m →
  re_search r (pre ++ s) = Some m.
Proof.
  intros Hpre Hm. induction pre as [|x pre IH].
  - simpl. destruct s; simpl; by rewrite Hm.
  - assert (re_match r (x :: pre ++ s) = None) as H0
      by (by apply (Hpre [] (x :: pre))).
    cbn [app re_search]. rewrite H0.
    apply IH. intros p1 p2 -> Hp2. by apply (Hpre (x :: p1)).
Qed.

Lemma re_search_Some (r : regex) (s : str) m :
  re_search r s = Some m →
  ∃ pre s', s = pre ++ s' ∧ re_match r s' = Some m.
Proof.
  induction s as [|x s IH]; simpl.
  - destruct (re_match r []) eqn:E; [|done].
    intros [= <-]. by exists [], [].
  - destruct (re_match r (x :: s)) eqn:E.
    + intros [= <-]. by exists [], (x :: s).
    + intros (pre & s' & -> & H)%IH. by exists (x :: pre), s'.
Qed.

Lemma user_shape_shift (pre s d post : str) :
  user_shape (pre ++ s) pre d post ↔ user_shape s [] d post.
Proof.
  split; intros (h & user & ? & ? & ? & ? & ? & Heq); exists h, user;
    repeat split; try done.
  - by apply app_inv_head in Heq.
  - rewrite app_nil_l in Heq. by rewrite Heq.
Qed.

Lemma web_shape_shift (pre s d post : str) :
  web_shape (pre ++ s) pre d post ↔ web_shape s [] d post.
Proof.
  split; intros (h & ? & ? & ? & Heq); exists h; repeat split; try done.
  - by apply app_inv_head in Heq.
  - rewrite app_nil_l in Heq. by rewrite Heq.
Qed.

Lemma user_shape_split (url pre d post : str) :
  user_shape url pre d post → ∃ s, url = pre ++ s.
Proof. intros (h & user & _ & _ & _ & _ & _ & ->). eauto. Qed.

Lemma web_shape_split (url pre d post : str) :
  web_shape url pre d post → ∃ s, url = pre ++ s.
Proof. intros (h & _ & _ & _ & ->). eauto. Qed.

(** What [re.search] returns for a pattern whose match at one position is
    described by [at_start] and, on the string, by [shape]. *)
Section Search.
Variable r : regex.
Variable at_start : str → option str.
Variable shape : str → str → str → str → Prop.
Hypothesis match_at : ∀ s, re_match r s = Some <$> at_start s.
Hypothesis at_shape : ∀ s d post,
  shape s [] d post → at_start s = Some (d ++ take_while is_digit post).
Hypothesis at_Some : ∀ s d,
  at_start s = Some d → ∃ post, shape s [] d post ∧ ends_run is_digit post.
Hypothesis shift : ∀ pre s d post,
  shape (pre ++ s) pre d post ↔ shape s [] d post.
Hypothesis split_at : ∀ url pre d post,
  shape url pre d post → ∃ s, url = pre ++ s.

Lemma search_found (url : str) m :
  re_search r url = Some m →
  ∃ pre d post, m = Some d ∧ shape url pre d post ∧ ends_run is_digit post.
Proof using match_at at_Some shift.
  intros (pre & s & -> & H)%re_search_Some.
  rewrite match_at in H.
  destruct (at_start s) as [d|] eqn:E; [|done].
  injection H as <-.
  destruct (at_Some _ _ E) as (post & Hs & Hp).
  exists pre, d, post. by rewrite shift.
Qed.

Lemma search_none (url : str) :
  re_search r url = None ↔ ¬ has_shape shape url.
Proof using match_at at_shape at_Some shift split_at.
  split.
  - intros Hn (pre & d & post & Hs).
    destruct (split_at _ _ _ _ Hs) as [s ->].
    apply shift, at_shape in Hs.
    rewrite re_search_None in Hn.
    specialize (Hn pre s eq_refl). rewrite match_at, Hs in Hn. done.
  - intros Hn. destruct (re_search r url) as [m|] eqn:E; [|done].
    destruct (search_found _ _ E) as (pre & d & post & _ & Hs & _).
    destruct Hn. by exists pre, d, post.
Qed.

Lemma search_leftmost (url pre d post : str) :
  shape url pre d post → ends_run is_digit post → leftmost shape url pre →
  re_search r url = Some (Some d).
Proof using match_at at_shape at_Some shift split_at.
  intros Hs Hp Hl.
  destruct (split_at _ _ _ _ Hs) as [s ->].
  apply re_search_leftmost.
  - intros p1 p2 -> Hp2. rewrite match_at.
    destruct (at_start (p2 ++ s)) as [d'|] eqn:E; [|done].
    destruct (at_Some _ _ E) as (post' & Hs' & _).
    apply (shift p1) in Hs'. rewrite app_assoc in Hs'.
    apply Hl in Hs'. rewrite length_app in Hs'.
    destruct p2; [done|]. simpl in Hs'. lia.
  - apply shift, at_shape in Hs.
    rewrite match_at, Hs, take_while_ended by done.
    by rewrite app_nil_r.
Qed.
End Search.

Lemma search_user_found (url : str) m :
  re_search pattern_user url = Some m →
  ∃ pre d post, m = Some d ∧ user_shape url pre d post ∧ ends_run is_digit post.
Proof.
  apply (search_found _ user_at);
    auto using re_match_user, user_at_Some, user_shape_shift.
Qed.

Lemma search_web_found (url : str) m :
  re_search pattern_web url = Some m →
  ∃ pre d post, m = Some d ∧ web_shape url pre d post ∧ ends_run is_digit post.
Proof.
  apply (search_found _ web_at);
    auto using re_match_web, web_at_Some, web_shape_shift.
Qed.

Lemma search_user_none (url : str) :
  re_search pattern_user url = None ↔ ¬ has_shape user_shape url.
Proof.
  apply (search_none _ user_at);
    eauto using re_match_user, user_at_shape, user_at_Some, user_shape_shift,
      user_shape_split.
Qed.

Lemma search_web_none (url : str) :
  re_search pattern_web url = None ↔ ¬ has_shape web_shape url.
Proof.
  apply (search_none _ web_at);
    eauto using re_match_web, web_at_shape, web_at_Some, web_shape_shift,
      web_shape_split.
Qed.

Lemma extract_tweet_id_found (url digits : str) :
  extract_tweet_id url = Some digits →
  (∃ pre post, user_shape url pre digits post ∧ ends_run is_digit post) ∨
  (∃ pre post, web_shape url pre digits post ∧ ends_run is_digit post).
Proof.
  unfold extract_tweet_id, patterns, first_group.
  destruct (re_search pattern_user url) as [m|] eqn:E1.
  { apply search_user_found in E1 as (pre & d' & post & -> & ? & ?).
    intros [= <-]. left. eauto. }
  destruct (re_search pattern_web url) as [m|] eqn:E2; [|done].
  apply search_web_found in E2 as (pre & d' & post & -> & ? & ?).
  intros [= <-]. right. eauto.
Qed.

(** ** Lemmas on the selection *)

Lemma is_video_type_true (t : str) :
  is_video_type t = true ↔ t = lit "video" ∨ t = lit "animated_gif".
Proof.
  unfold is_video_type.
  rewrite orb_true_iff, !bool_decide_eq_true. done.
Qed.

Lemma next_video_first (media : list media_obj) (m : media_obj) :
  first_video media m → next_video media = Returns (Some m).
Proof.
  intros (before & after & -> & Hb & Hm).
  induction Hb as [|x before (t & Ht & H1 & H2) _ IH]; simpl.
  - destruct Hm as [Hm|Hm]; rewrite Hm; done.
  - rewrite Ht. destruct (is_video_type t) eqn:E; [|done].
    apply is_video_type_true in E. tauto.
Qed.

Lemma max_scan_ge {A} (key : A → Z) (best : A) (items : list A) :
  key best ≤ key (max_scan key best items).
Proof.
  revert best. induction items as [|x items IH]; intros best; simpl; [lia|].
  destruct (Z.gtb_spec (key x) (key best)); [|done].
  specialize (IH x). lia.
Qed.

(** [max] returns the first item whose key no other item exceeds. *)
Lemma max_scan_spec {A} (key : A → Z) (best : A) (items : list A) :
  ∃ before after,
    best :: items = before ++ max_scan key best items :: after ∧
    Forall (λ x, key x < key (max_scan key best items)) before ∧
    Forall (λ x, key x ≤ key (max_scan key best items)) after.
Proof.
  revert best. induction items as [|x items IH]; intros best; simpl.
  - by exists [], [].
  - destruct (Z.gtb_spec (key x) (key best)) as [Hgt|Hle].
    + pose proof (max_scan_ge key x items) as Hge.
      destruct (IH x) as (before & after & Heq & Hb & Ha).
      exists (best :: before), after. split; [simpl; by f_equal|].
      split; [|done]. constructor; [lia|done].
    + destruct (IH best) as (before & after & Heq & Hb & Ha).
      destruct before as [|y before].
      * injection Heq as Hbest Hitems.
        exists [], (x :: items). rewrite <- Hbest in Ha |- *.
        split; [done|]. split; [done|]. constructor; [lia|].
        by rewrite Hitems.
      * injection Heq as <- Hitems.
        exists (best :: x :: before), after.
        split; [simpl; do 2 f_equal; exact Hitems|].
        apply Forall_cons in Hb as [Hy Hb]. split; [|done].
        repeat constructor; [done|lia|done].
Qed.

Lemma extract_tweet_id_run (url tweet_id : str) :
  extract_tweet_id url = Some tweet_id →
  tweet_id ≠ [] ∧ all_of is_digit tweet_id.
Proof.
  intros H.
  destruct (extract_tweet_id_found _ _ H)
    as [(pre & post & Hu & _)|(pre & post & Hw & _)].
  - destruct Hu as (h & user & _ & _ & _ & ? & ? & _). done.
  - destruct Hw as (h & _ & ? & ? & _). done.
Qed.

(** ** Lemmas on runs of [download_video] *)

Lemma try_except_returns {A} (c : M A) (h : exn → M A) (w w' : world) a :
  c w = (Returns a, w') → try_except c h w = (Returns a, w').
Proof. unfold try_except. by intros ->. Qed.


(** A run that gets an identifier, makes the directory and receives a
    parsed reply continues with the selection. *)
Lemma download_video_body_selects self url output_dir tweet_id tweet_data w :
  extract_tweet_id url = Some tweet_id →
  mkdir_refused env output_dir = false →
  api_answers tweet_id tweet_data →
  download_video_body self url output_dir w =
  deliver tweet_id output_dir (select_variant tweet_data)
    (at_selection self tweet_id output_dir w).
Proof.
  intros Hid Hdir (response & Hr & Hs & Hj).
  unfold download_video_body. rewrite Hid.
  destruct (extract_tweet_id_run _ _ Hid) as [Hne _].
  destruct tweet_id as [|c tweet_id]; [done|].
  unfold mkdir, get_tweet_data, bind, emit, at_selection; simpl.
  rewrite Hdir, Hr, Hs, Hj. simpl.
  by rewrite <- !app_assoc.
Qed.

(** ** Lemmas on streaming *)



Lemma concat_chunks_of (n fuel : nat) (l : list byte) :
  (0 < n)%nat → (length l ≤ fuel)%nat → concat (chunks_of fuel n l) = l.
Proof.
  intros Hn. revert l. induction fuel as [|fuel IH]; intros l Hl.
  - destruct l; [done|simpl in Hl; lia].
  - destruct l as [|x l]; [done|].
    cbn [chunks_of concat]. rewrite IH.
    + apply take_drop.
    + rewrite length_drop. simpl in *. lia.
Qed.



Lemma percent_floor (downloaded total_size : Z) :
  0 ≤ downloaded → 0 < total_size →
  percent downloaded total_size = (100 * downloaded) `div` total_size.
Proof. intros. unfold percent. apply Z.quot_div_nonneg; lia. Qed.

Lemma bytes_so_far_cons (data : list byte) (rest : list (list byte)) i :
  bytes_so_far (data :: rest) (S i) =
  Z.of_nat (length data) + bytes_so_far rest i.
Proof.
  unfold bytes_so_far. cbn [take concat]. rewrite length_app. lia.
Qed.

Lemma bytes_so_far_nonneg (chunks : list (list byte)) i :
  0 ≤ bytes_so_far chunks i.
Proof. unfold bytes_so_far. lia. Qed.

(** The loop over the chunks, when no write is refused: every chunk is
    appended and followed by its progress update. *)
Lemma write_chunks_run file total_size downloaded chunks old w :
  0 < total_size → 0 ≤ downloaded →
  (∀ held, write_refused env file held = false) →
  files w !! file = Some old →
  write_chunks file total_size downloaded chunks w =
  (Returns (),
   {| dirs := dirs w;
      files := <[file := old ++ concat chunks]> (files w);
      log := log w ++
        mjoin (imap (λ i data,
                       [Write file data;
                        Update ((100 * (downloaded + bytes_so_far chunks i))
                                  `div` total_size)])
                 chunks) |}).
Proof.
  intros Ht Hd Hw. revert downloaded old w Hd.
  induction chunks as [|data rest IH]; intros downloaded old w Hd Hold.
  - simpl. unfold ret. rewrite !app_nil_r, insert_id by done. by destruct w.
  - cbn [write_chunks]. unfold bind at 1. unfold file_write.
    rewrite Hold. cbn [default]. rewrite Hw.
    unfold bind at 1. unfold emit at 1. cbn [dirs files log].
    rewrite (IH _ (old ++ data)) by (lia || apply lookup_insert_eq).
    cbn [dirs files log]. f_equal. f_equal.
    + by rewrite insert_insert_eq, <- app_assoc.
    + rewrite imap_cons. cbn [mjoin list_join].
      rewrite <- !app_assoc. cbn [app]. do 3 f_equal.
      * rewrite percent_floor by lia. do 2 f_equal.
        unfold bytes_so_far. cbn [take concat].
        rewrite app_nil_r. lia.
      * f_equal. apply imap_ext. intros i c _. cbn [compose].
        by rewrite bytes_so_far_cons, Z.add_assoc.
Qed.

(** ** Lemmas on what a run leaves behind *)

Lemma follows_refl (w : world) : follows w w.
Proof. split; [done|]. exists []. by rewrite app_nil_r. Qed.

Lemma follows_trans (w1 w2 w3 : world) :
  follows w1 w2 → follows w2 w3 → follows w1 w3.
Proof.
  intros [Hd1 [e1 H1]] [Hd2 [e2 H2]]. split; [set_solver|].
  exists (e1 ++ e2). by rewrite H2, H1, app_assoc.
Qed.

Lemma follows_bind {A B} (c : M A) (k : A → M B) (w : world) :
  (∀ w, follows w (c w).2) → (∀ a w, follows w (k a w).2) →
  follows w (bind c k w).2.
Proof.
  intros Hc Hk. unfold bind. specialize (Hc w).
  destruct (c w) as [[a|e] w']; simpl in *; [|done].
  by eapply follows_trans.
Qed.

Lemma follows_emit (e : event) (w : world) : follows w (emit e w).2.
Proof. split; simpl; eauto. Qed.

Lemma follows_file_open (p : str) (w : world) : follows w (file_open p w).2.
Proof.
  unfold file_open, bind, emit, raise. simpl.
  destruct (open_refused env p); split; simpl; eauto.
Qed.

Lemma follows_file_write (p : str) data (w : world) :
  follows w (file_write p data w).2.
Proof.
  unfold file_write. simpl.
  destruct (write_refused env p _); [apply follows_refl|].
  split; simpl; eauto.
Qed.

Lemma follows_write_chunks file total_size downloaded chunks (w : world) :
  follows w (write_chunks file total_size downloaded chunks w).2.
Proof.
  revert downloaded w.
  induction chunks as [|data rest IH]; intros downloaded w.
  - apply follows_refl.
  - cbn [write_chunks]. apply follows_bind; [apply follows_file_write|].
    intros _ w1. apply follows_bind; [apply follows_emit|].
    intros _ w2. apply IH.
Qed.

Lemma follows_stream_to_file video_url file (w : world) :
  follows w (stream_to_file video_url file w).2.
Proof.
  unfold stream_to_file. apply follows_bind; [apply follows_emit|].
  intros _ w1. destruct (video env video_url) as [response|];
    [|apply follows_refl].
  apply follows_bind.
  { intros w2. unfold total_size_of.
    destruct (content_length response) as [[n|]|]; apply follows_refl. }
  intros total_size w2. apply follows_bind; [apply follows_file_open|].
  intros _ w3. destruct (total_size =? 0).
  - apply follows_bind.
    + intros w4. unfold content.
      destruct (broken response); apply follows_refl.
    + intros data w4. apply follows_file_write.
  - apply follows_bind; [intros w4; apply follows_write_chunks|].
    intros _ w4. destruct (broken response); apply follows_refl.
Qed.

Lemma follows_deliver tweet_id output_path chosen (w : world) :
  follows w (deliver tweet_id output_path chosen w).2.
Proof.
  destruct chosen; cbn [deliver];
    try (apply follows_bind; [apply follows_emit|]; intros _ w1;
         apply follows_refl).
  - apply follows_refl.
  - apply follows_bind; [apply follows_emit|]. intros _ w1.
    apply follows_bind; [intros w2; apply follows_stream_to_file|].
    intros _ w2. apply follows_bind; [apply follows_emit|].
    intros _ w3. apply follows_refl.
Qed.

Lemma follows_read_reply tweet_id (w : world) :
  follows w (read_reply tweet_id w).2.
Proof.
  unfold read_reply. destruct (api_tweets env tweet_id) as [response|];
    [|apply follows_refl].
  destruct (status_code response =? 200); [|apply follows_refl].
  destruct (json response); apply follows_refl.
Qed.

Lemma follows_try_except {A} (c : M A) (h : exn → M A) (w : world) :
  (∀ w, follows w (c w).2) → (∀ e w, follows w (h e w).2) →
  follows w (try_except c h w).2.
Proof.
  intros Hc Hh. unfold try_except. specialize (Hc w).
  destruct (c w) as [[a|e] w']; simpl in *; [done|].
  destruct (is_Exception e); [|done].
  by eapply follows_trans.
Qed.

(** A run that gets an identifier and makes the directory sends the
    request next. *)
Lemma download_video_body_requests self url output_dir tweet_id w :
  extract_tweet_id url = Some tweet_id →
  mkdir_refused env output_dir = false →
  download_video_body self url output_dir w =
  bind (read_reply tweet_id)
    (λ tweet_data, deliver tweet_id output_dir (select_variant tweet_data))
    (at_selection self tweet_id output_dir w).
Proof.
  intros Hid Hdir.
  unfold download_video_body. rewrite Hid.
  destruct (extract_tweet_id_run _ _ Hid) as [Hne _].
  destruct tweet_id as [|c tweet_id]; [done|].
  unfold mkdir, get_tweet_data, bind, emit, at_selection; simpl.
  rewrite Hdir. simpl. by rewrite <- !app_assoc.
Qed.

Lemma download_video_body_invalid self url output_dir w :
  extract_tweet_id url = None →
  download_video_body self url output_dir w = (Returns false, print InvalidURL w).
Proof. intros Hid. unfold download_video_body. by rewrite Hid. Qed.


(** ** The URL identifier extractor *)

(** C2. [extract_tweet_id] is a total function of the string.  When the
    string has the username-qualified shape, it returns the digit sequence
    of the leftmost occurrence of that shape, read to the last digit; when it
    has only the web shape, the same for that shape, the username-qualified
    pattern having been tried first; it returns [None] exactly when the
    string has neither shape; and whatever it returns was read from one of
    the two shapes. *)
Theorem extract_tweet_id_spec (url : str) :
  (∀ pre digits post,
     user_shape url pre digits post → ends_run is_digit post →
     leftmost user_shape url pre →
     extract_tweet_id url = Some digits) ∧
  (∀ pre digits post,
     ¬ has_shape user_shape url →
     web_shape url pre digits post → ends_run is_digit post →
     leftmost web_shape url pre →
     extract_tweet_id url = Some digits) ∧
  (extract_tweet_id url = None ↔
     ¬ has_shape user_shape url ∧ ¬ has_shape web_shape url) ∧
  (∀ digits,
     extract_tweet_id url = Some digits →
     (∃ pre post, user_shape url pre digits post ∧ ends_run is_digit post) ∨
     (∃ pre post, web_shape url pre digits post ∧ ends_run is_digit post)).
Proof.
  split; [|split; [|split]]; [| | |apply extract_tweet_id_found];
    unfold extract_tweet_id, patterns, first_group.
  - intros pre d post Hs Hp Hl.
    erewrite (search_leftmost _ user_at user_shape);
      eauto using re_match_user, user_at_shape, user_at_Some, user_shape_shift,
        user_shape_split.
  - intros pre d post Hn Hs Hp Hl.
    apply search_user_none in Hn. rewrite Hn.
    erewrite (search_leftmost _ web_at web_shape);
      eauto using re_match_web, web_at_shape, web_at_Some, web_shape_shift,
        web_shape_split.
  - rewrite <- search_user_none, <- search_web_none.
    destruct (re_search pattern_user url) as [m|] eqn:E1.
    { apply search_user_found in E1 as (? & ? & ? & -> & ?).
      split; [done|by intros [? ?]]. }
    destruct (re_search pattern_web url) as [m|] eqn:E2; [|done].
    apply search_web_found in E2 as (? & ? & ? & -> & ?).
    split; [done|by intros [? ?]].
Qed.

(** C8. A present result of [extract_tweet_id] is a non-empty string of
    decimal digits (the class [\d]); hence it holds no slash, no backslash
    and no dot, so the file name built from it has no path separator and no
    traversal sequence. *)
Theorem extract_tweet_id_digits (url tweet_id : str) :
  extract_tweet_id url = Some tweet_id →
  tweet_id ≠ [] ∧ all_of is_digit tweet_id ∧
  ∀ c, c ∈ tweet_id → c ≠ 47%N ∧ c ≠ 92%N ∧ c ≠ 46%N.
Proof.
  intros [Hne Hd]%extract_tweet_id_run.
  split; [done|]. split; [done|].
  intros c Hc. unfold all_of in Hd. rewrite Forall_forall in Hd.
  apply Hd in Hc. repeat split; intros ->; done.
Qed.

(** ** The variant selection *)

(** C1. When the first video-typed media entry carries a variants list, the
    selection keeps the variants whose content type is exactly "video/mp4";
    it ends with the "no MP4 variants" message when none is left (the run
    prints it and returns [False]); otherwise it takes the resource URL of
    the first variant of maximal bit rate, a missing bit rate counting
    as 0.  On the list A (mp4, 600000),
    B (mp4, 2176000), C (application/x-mpegURL, 0) it selects B's URL. *)
Theorem select_variant_best
    self url output_dir tweet_id tweet_data media video_media variants w :
  has_media tweet_data media →
  first_video media video_media →
  m_variants video_media = Some variants →
  let rate v := default 0 (v_bit_rate v) in
  let mp4 := List.filter is_mp4 variants in
  (∀ v, In v mp4 ↔ In v variants ∧ v_content_type v = Some (lit "video/mp4")) ∧
  (mp4 = [] →
   select_variant tweet_data = NoVariants ∧
   (extract_tweet_id url = Some tweet_id →
    mkdir_refused env output_dir = false →
    api_answers tweet_id tweet_data →
    download_video self url output_dir w =
    (Returns false,
     print NoMP4Variants (at_selection self tweet_id output_dir w)))) ∧
  (mp4 ≠ [] →
   ∃ before best after,
     mp4 = before ++ best :: after ∧
     Forall (λ v, rate v < rate best) before ∧
     Forall (λ v, rate v ≤ rate best) after ∧
     select_variant tweet_data =
       match v_url best with
       | Some video_url => Selected video_url
       | None => Failed (KeyError (lit "url"))
       end) ∧
  (variants =
     [ {| v_content_type := Some (lit "video/mp4"); v_bit_rate := Some 600000;
          v_url := Some (lit "A") |};
       {| v_content_type := Some (lit "video/mp4"); v_bit_rate := Some 2176000;
          v_url := Some (lit "B") |};
       {| v_content_type := Some (lit "application/x-mpegURL");
          v_bit_rate := Some 0; v_url := Some (lit "C") |} ] →
   select_variant tweet_data = Selected (lit "B")).
Proof.
  intros (inc & Hi & Hm) Hfirst%next_video_first Hv rate mp4.
  assert (select_variant tweet_data =
    match mp4 with
    | [] => NoVariants
    | v :: rest =>
        match v_url (max_scan bit_rate_key v rest) with
        | Some video_url => Selected video_url
        | None => Failed (KeyError (lit "url"))
        end
    end) as Hsel.
  { unfold select_variant. by rewrite Hi, Hm, Hfirst, Hv. }
  split; [|split; [|split]].
  - intros v. unfold mp4. rewrite filter_In. unfold is_mp4.
    by rewrite bool_decide_eq_true.
  - intros Hnil. rewrite Hnil in Hsel. split; [done|].
    intros Hid Hdir Hapi. apply try_except_returns.
    rewrite (download_video_body_selects _ _ _ _ _ _ Hid Hdir Hapi), Hsel.
    done.
  - intros Hne. destruct mp4 as [|v rest]; [done|].
    destruct (max_scan_spec bit_rate_key v rest)
      as (before & after & Heq & Hb & Ha).
    by exists before, (max_scan bit_rate_key v rest), after.
  - intros ->. by rewrite Hsel.
Qed.

(** C5. A reply without [includes], or whose [includes] has no [media],
    ends the selection with the "no media" message and with no other: the
    run prints it after the request and returns [False]. *)
Theorem select_variant_no_media self url output_dir tweet_id tweet_data w :
  tw_includes tweet_data = None ∨
  (∃ inc, tw_includes tweet_data = Some inc ∧ inc_media inc = None) →
  select_variant tweet_data = NoMedia ∧
  (extract_tweet_id url = Some tweet_id →
   mkdir_refused env output_dir = false →
   api_answers tweet_id tweet_data →
   download_video self url output_dir w =
   (Returns false,
    print NoMediaFound (at_selection self tweet_id output_dir w))).
Proof.
  intros H.
  assert (select_variant tweet_data = NoMedia) as Hsel.
  { unfold select_variant.
    destruct H as [->|(inc & -> & ->)]; done. }
  split; [done|]. intros Hid Hdir Hapi.
  apply try_except_returns.
  rewrite (download_video_body_selects _ _ _ _ _ _ Hid Hdir Hapi), Hsel.
  done.
Qed.

(** C9. When the first entry typed "video" or "animated_gif" has no
    [variants] key, the selection ends with the "no video" message, the one
    it also gives when no entry is video-typed, and not with the "no MP4
    variants" one: the run prints it after the request and returns [False]. *)
Theorem select_variant_no_variants_key
    self url output_dir tweet_id tweet_data media video_media w :
  has_media tweet_data media →
  first_video media video_media →
  m_variants video_media = None →
  select_variant tweet_data = NoVideo ∧
  (∀ tweet_data' media',
     has_media tweet_data' media' → Forall typed_other media' →
     select_variant tweet_data' = select_variant tweet_data) ∧
  (extract_tweet_id url = Some tweet_id →
   mkdir_refused env output_dir = false →
   api_answers tweet_id tweet_data →
   download_video self url output_dir w =
   (Returns false,
    print NoVideoFound (at_selection self tweet_id output_dir w))).
Proof.
  intros (inc & Hi & Hm) Hfirst%next_video_first Hv.
  assert (select_variant tweet_data = NoVideo) as Hsel.
  { unfold select_variant. by rewrite Hi, Hm, Hfirst, Hv. }
  split; [done|]. split.
  - intros data' media' (inc' & Hi' & Hm') Hall.
    rewrite Hsel. unfold select_variant. rewrite Hi', Hm'.
    assert (next_video media' = Returns None) as ->; [|done].
    clear Hm'. induction Hall as [|x l (t & Ht & H1 & H2) _ IH]; simpl; [done|].
    rewrite Ht. destruct (is_video_type t) eqn:E; [|done].
    apply is_video_type_true in E. tauto.
  - intros Hid Hdir Hapi.
    apply try_except_returns.
    rewrite (download_video_body_selects _ _ _ _ _ _ Hid Hdir Hapi), Hsel.
    done.
Qed.

(** ** The streaming download *)


(** C6. With a [content-length] that is absent or zero, no progress update
    is emitted, whatever happens; and when nothing fails the whole body is
    written to the file in one [write]. *)
Theorem stream_without_length video_url file response w :
  video env video_url = Some response →
  content_length response = None ∨
  content_length response = Some (Numeric 0) →
  (∃ events,
     log (stream_to_file video_url file w).2 = log w ++ events ∧
     Forall (λ e, ¬ is_update e) events) ∧
  (open_refused env file = false →
   broken response = false →
   write_refused env file [] = false →
   stream_to_file video_url file w =
     (Returns (),
      {| dirs := dirs w;
         files := <[file := body response]> (files w);
         log := log w ++
                [VideoGet video_url; Open file; Write file (body response)] |})).
Proof.
  intros Hv Hcl.
  assert (total_size_of response = ret 0) as Htotal.
  { unfold total_size_of. by destruct Hcl as [-> | ->]. }
  unfold stream_to_file, bind, emit. rewrite Hv, Htotal.
  unfold ret at 1. unfold file_open, bind, emit. cbn [dirs files log].
  assert (∀ e, (∀ completed, e ≠ Update completed) → ¬ is_update e) as Hnot.
  { intros e He [completed ->]. by apply (He completed). }
  split.
  - destruct (open_refused env file); cbn [raise fst snd log].
    { exists [VideoGet video_url; Open file].
      rewrite <- app_assoc. split; [done|]. repeat constructor; by apply Hnot. }
    unfold content, file_write. cbn [Z.eqb].
    destruct (broken response); cbn [raise ret fst snd log files].
    { exists [VideoGet video_url; Open file].
      rewrite <- app_assoc. split; [done|]. repeat constructor; by apply Hnot. }
    rewrite lookup_insert_eq. cbn [default from_option id].
    destruct (write_refused env file []); cbn [snd log].
    { exists [VideoGet video_url; Open file].
      rewrite <- app_assoc. split; [done|]. repeat constructor; by apply Hnot. }
    exists [VideoGet video_url; Open file; Write file (body response)].
    rewrite <- !app_assoc. split; [done|]. repeat constructor; by apply Hnot.
  - intros -> Hb Hw. unfold content, file_write.
    rewrite Hb. simpl. rewrite lookup_insert_eq. simpl. rewrite Hw.
    by rewrite insert_insert_eq, <- !app_assoc.
Qed.

(** ** Error handling and the entry point *)


(** C7. When no identifier can be extracted from the URL, the program exits
    with status 1, and the run has created no file and no directory: all it
    has done is print one message. *)
Theorem invalid_url_exit url output w :
  extract_tweet_id url = None →
  let result := main url output w in
  result.1 = Exit 1 ∧
  files result.2 = files w ∧ dirs result.2 = dirs w ∧
  (∃ m, log result.2 = log w ++ [Print m]) ∧
  (∀ self output_dir,
     download_video self url output_dir w =
     (Returns false, print InvalidURL w)).
Proof.
  intros Hid.
  assert (∀ self output_dir w0,
    download_video self url output_dir w0 =
    (Returns false, print InvalidURL w0)) as Hrun.
  { intros self output_dir w0. apply try_except_returns.
    by apply download_video_body_invalid. }
  cbn zeta. unfold main, init.
  destruct (getenv_token env) as [[|c token]|]; simpl;
    rewrite ?Hrun; simpl; eauto 10.
Qed.

(** C10. When an identifier is extracted and the directory can be made,
    [mkdir] comes first and the metadata request after it; whatever happens
    from there on, the directory exists when the operation returns.  In
    particular, when the request fails, the operation returns [False], no
    file has been touched and the directory is there. *)
Theorem directory_before_request self url output_dir tweet_id w :
  extract_tweet_id url = Some tweet_id →
  mkdir_refused env output_dir = false →
  let result := download_video self url output_dir w in
  (∃ events,
     log result.2 =
     log w ++ [Mkdir output_dir; Print FetchingTweetData;
               ApiGet (bearer_token self) tweet_id] ++ events) ∧
  output_dir ∈ dirs result.2 ∧
  (api_tweets env tweet_id = None →
   result.1 = Returns false ∧ files result.2 = files w ∧
   output_dir ∈ dirs result.2).
Proof.
  intros Hid Hdir result.
  set (w1 := at_selection self tweet_id output_dir w).
  set (rest := bind (read_reply tweet_id)
    (λ tweet_data, deliver tweet_id output_dir (select_variant tweet_data))).
  set (handler := λ e : exn, emit (Print (Error e));; ret false).
  assert (download_video self url output_dir w = try_except rest handler w1)
    as Hrun.
  { unfold download_video, try_except.
    by rewrite (download_video_body_requests _ _ _ _ _ Hid Hdir). }
  assert (follows w1 result.2) as [Hdirs [events Hlog]].
  { unfold result. rewrite Hrun. apply follows_try_except.
    - intros w0. apply follows_bind; [apply follows_read_reply|].
      intros tweet_data w2. apply follows_deliver.
    - intros e w0. apply follows_bind; [apply follows_emit|].
      intros _ w2. apply follows_refl. }
  assert (output_dir ∈ dirs result.2) as Hin.
  { apply Hdirs. unfold w1, at_selection. simpl. set_solver. }
  split; [|split; [done|]].
  - exists events. rewrite Hlog. unfold w1, at_selection. simpl.
    by rewrite <- app_assoc.
  - intros Hapi. split; [|split; [|done]].
    + unfold result. rewrite Hrun.
      unfold try_except, rest, bind, read_reply. by rewrite Hapi.
    + unfold result. rewrite Hrun.
      unfold try_except, rest, bind, read_reply. by rewrite Hapi.
Qed.

(** * Further properties of the program *)

(** ** Outcomes of the streaming loop *)



(** ** Outcomes of [download_video] *)






Lemma download_video_requests self url output_dir tweet_id w :
  extract_tweet_id url = Some tweet_id →
  mkdir_refused env output_dir = false →
  download_video self url output_dir w =
  try_except
    (bind (read_reply tweet_id)
       (λ tweet_data, deliver tweet_id output_dir (select_variant tweet_data)))
    (λ e, emit (Print (Error e));; ret false)
    (at_selection self tweet_id output_dir w).
Proof.
  intros Hid Hdir. unfold download_video, try_except.
  by rewrite (download_video_body_requests _ _ _ _ _ Hid Hdir).
Qed.

(** A run that has a parsed reply continues with [deliver]. *)
Lemma download_video_delivers self url output_dir tweet_id tweet_data w :
  extract_tweet_id url = Some tweet_id →
  mkdir_refused env output_dir = false →
  api_answers tweet_id tweet_data →
  download_video self url output_dir w =
  try_except (deliver tweet_id output_dir (select_variant tweet_data))
    (λ e, emit (Print (Error e));; ret false)
    (at_selection self tweet_id output_dir w).
Proof.
  intros Hid Hdir Hapi. unfold download_video, try_except.
  by rewrite (download_video_body_selects _ _ _ _ _ _ Hid Hdir Hapi).
Qed.

(** ** The ways a run can go *)

Lemma read_reply_cases tweet_id w :
  (∃ tweet_data,
     api_answers tweet_id tweet_data ∧
     read_reply tweet_id w = (Returns tweet_data, w)) ∨
  (∃ e, read_reply tweet_id w = (Raises e, w)).
Proof.
  unfold read_reply, api_answers.
  destruct (api_tweets env tweet_id) as [reply|]; [|right; by eexists].
  destruct (Z.eqb_spec (status_code reply) 200); [|right; by eexists].
  destruct (json reply) as [tweet_data|] eqn:Hj; [|right; by eexists].
  left. exists tweet_data. split; [|done]. by exists reply.
Qed.

(** Every run of [download_video] is of one of four kinds: no identifier;
    [mkdir] refused; no usable reply from the API; or a reply handed to
    [deliver], whose result or exception decides. *)
Lemma download_video_cases self url output_dir w r w' :
  download_video self url output_dir w = (r, w') →
  (extract_tweet_id url = None ∧
   r = Returns false ∧ w' = print InvalidURL w) ∨
  (∃ tweet_id,
     extract_tweet_id url = Some tweet_id ∧
     mkdir_refused env output_dir = true ∧
     r = Returns false ∧
     w' = print (Error OSError) (at_mkdir output_dir w)) ∨
  (∃ tweet_id e,
     extract_tweet_id url = Some tweet_id ∧
     mkdir_refused env output_dir = false ∧
     (∀ tweet_data, ¬ api_answers tweet_id tweet_data) ∧
     r = Returns false ∧
     w' = print (Error e) (at_selection self tweet_id output_dir w)) ∨
  (∃ tweet_id tweet_data r1 w2,
     extract_tweet_id url = Some tweet_id ∧
     mkdir_refused env output_dir = false ∧
     api_answers tweet_id tweet_data ∧
     deliver tweet_id output_dir (select_variant tweet_data)
       (at_selection self tweet_id output_dir w) = (r1, w2) ∧
     ((∃ b, r1 = Returns b ∧ r = Returns b ∧ w' = w2) ∨
      (∃ e, r1 = Raises e ∧ r = Returns false ∧ w' = print (Error e) w2))).
Proof.
  destruct (extract_tweet_id url) as [tweet_id|] eqn:Hid.
  2:{ unfold download_video.
      rewrite (try_except_returns _ _ _ _ _
                 (download_video_body_invalid self url output_dir w Hid)).
      intros [= <- <-]. by left. }
  destruct (mkdir_refused env output_dir) eqn:Hdir.
  { intros Hrun. right. left. exists tweet_id.
    destruct (extract_tweet_id_run _ _ Hid) as [Hne _].
    revert Hrun. unfold download_video, try_except, download_video_body.
    rewrite Hid. destruct tweet_id; [done|].
    unfold mkdir, bind, emit. rewrite Hdir. cbn [raise is_Exception].
    unfold ret. by intros [= <- <-]. }
  rewrite (download_video_requests _ _ _ _ _ Hid Hdir).
  unfold try_except, bind.
  destruct (read_reply_cases tweet_id (at_selection self tweet_id output_dir w))
    as [(tweet_data & Hapi & ->)|[e He]].
  - intros Hrun. right. right. right.
    destruct (deliver tweet_id output_dir (select_variant tweet_data)
                (at_selection self tweet_id output_dir w))
      as [[b|e] w2] eqn:Hdel.
    + injection Hrun as <- <-.
      exists tweet_id, tweet_data, (Returns b), w2.
      repeat split; try done. left. by exists b.
    + replace (is_Exception e) with true in Hrun by (by destruct e).
      unfold emit, ret in Hrun. injection Hrun as <- <-.
      exists tweet_id, tweet_data, (Raises e), w2.
      repeat split; try done. right. by exists e.
  - rewrite He. replace (is_Exception e) with true by (by destruct e).
    unfold emit, ret. intros [= <- <-]. right. right. left.
    exists tweet_id, e. repeat split; try done.
    intros tweet_data (reply & Hr & Hs & Hj).
    unfold read_reply in He. rewrite Hr, Hs, Hj in He. done.
Qed.


(** ** What a run logs *)

Lemma emits_ret {A} P (a : A) : emits P (ret a).
Proof. intros w. exists []. by rewrite app_nil_r. Qed.

Lemma emits_raise {A} P e : emits P (@raise A e).
Proof. intros w. exists []. by rewrite app_nil_r. Qed.

Lemma emits_emit P e : P e → emits P (emit e).
Proof. intros He w. exists [e]. split; [done|]. by constructor. Qed.

Lemma emits_bind {A B} P (c : M A) (k : A → M B) :
  emits P c → (∀ a, emits P (k a)) → emits P (bind c k).
Proof.
  intros Hc Hk w. unfold bind. destruct (Hc w) as (e1 & H1 & HP1).
  destruct (c w) as [[a|e] w1]; simpl in *; [|eauto].
  destruct (Hk a w1) as (e2 & H2 & HP2).
  exists (e1 ++ e2). rewrite H2, H1, app_assoc. split; [done|].
  by apply Forall_app.
Qed.

Lemma emits_file_open P file : P (Open file) → emits P (file_open file).
Proof.
  intros HP. unfold file_open. apply emits_bind; [by apply emits_emit|].
  intros _. destruct (open_refused env file); [apply emits_raise|].
  intros w. exists []. by rewrite app_nil_r.
Qed.

Lemma emits_file_write P file data :
  P (Write file data) → emits P (file_write file data).
Proof.
  intros HP w. unfold file_write.
  destruct (write_refused env file _); simpl.
  - exists []. by rewrite app_nil_r.
  - exists [Write file data]. split; [done|]. by constructor.
Qed.

Lemma emits_write_chunks P file total_size downloaded chunks :
  (∀ data, P (Write file data)) → (∀ completed, P (Update completed)) →
  emits P (write_chunks file total_size downloaded chunks).
Proof.
  intros HW HU. revert downloaded.
  induction chunks as [|data rest IH]; intros downloaded.
  - apply emits_ret.
  - cbn [write_chunks]. apply emits_bind; [by apply emits_file_write|].
    intros _. apply emits_bind; [by apply emits_emit|]. intros _. apply IH.
Qed.

Lemma emits_receive response file total_size :
  emits (stream_event file) (receive response file total_size).
Proof.
  assert (stream_event file (Open file)) by (by left).
  assert (∀ data, stream_event file (Write file data))
    by (intros data; right; left; by exists data).
  assert (∀ completed, stream_event file (Update completed))
    by (intros z; right; right; by exists z).
  unfold receive. apply emits_bind; [by apply emits_file_open|].
  intros _. destruct (total_size =? 0).
  - apply emits_bind.
    + unfold content. destruct (broken response);
        [apply emits_raise|apply emits_ret].
    + intros data. by apply emits_file_write.
  - apply emits_bind; [by apply emits_write_chunks|].
    intros _. destruct (broken response); [apply emits_raise|apply emits_ret].
Qed.

(** The request comes first; what follows belongs to the transfer. *)
Lemma stream_to_file_log video_url file w :
  ∃ events,
    log (stream_to_file video_url file w).2 =
      log w ++ VideoGet video_url :: events ∧
    Forall (stream_event file) events.
Proof.
  unfold stream_to_file. unfold bind at 1. unfold emit at 1.
  destruct (video env video_url) as [response|].
  2:{ by exists []. }
  assert (emits (stream_event file)
            (total_size <- total_size_of response;;
             receive response file total_size)) as Hrest.
  { apply emits_bind; [|intros n; apply emits_receive].
    unfold total_size_of.
    destruct (content_length response) as [[n|]|];
      [apply emits_ret|apply emits_raise|apply emits_ret]. }
  match goal with
  | |- context [bind _ _ ?w1] => destruct (Hrest w1) as (events & Hlog & HP)
  end.
  exists events. split; [|done].
  unfold receive in Hlog. rewrite Hlog. cbn [log]. by rewrite <- app_assoc.
Qed.

Lemma deliver_log tweet_id output_dir chosen w :
  ∃ events,
    log (deliver tweet_id output_dir chosen w).2 = log w ++ events ∧
    deliver_events
      (path_join output_dir (output_name tweet_id (strftime_now env)))
      chosen events.
Proof.
  set (file := path_join output_dir (output_name tweet_id (strftime_now env))).
  destruct chosen as [| | |e|video_url]; cbn [deliver deliver_events].
  1-3: by eexists.
  - exists []. by rewrite app_nil_r.
  - fold file. unfold bind at 1. unfold emit at 1. unfold bind at 1.
    match goal with
    | |- context [stream_to_file video_url file ?w1] =>
        destruct (stream_to_file_log video_url file w1)
          as (transfer & Hlog & HP);
        destruct (stream_to_file video_url file w1) as [[[]|e] w2]
    end; cbn [snd log] in *.
    + unfold bind, emit, ret. cbn [snd log]. rewrite Hlog.
      exists (AddTask :: VideoGet video_url ::
              transfer ++ [Print (DownloadedTo file)]).
      split; [by rewrite <- !app_assoc|].
      exists transfer, [Print (DownloadedTo file)]. eauto.
    + rewrite Hlog.
      exists (AddTask :: VideoGet video_url :: transfer ++ []).
      split; [by rewrite app_nil_r, <- !app_assoc|].
      exists transfer, []. eauto.
Qed.

Lemma requests_app (l1 l2 : list event) :
  requests (l1 ++ l2) = requests l1 ++ requests l2.
Proof. unfold requests. apply List.filter_app. Qed.

Lemma requests_stream file (events : list event) :
  Forall (stream_event file) events → requests events = [].
Proof.
  induction 1 as [|e l He _ IH]; [done|].
  unfold requests in *. cbn [List.filter]. rewrite IH.
  by destruct He as [->|[[data ->]|[z ->]]].
Qed.

(** The whole log of a run, by its kind. *)
Lemma download_video_log self url output_dir w :
  ∃ events,
    log (download_video self url output_dir w).2 = log w ++ events ∧
    (extract_tweet_id url = None ∧ events = [Print InvalidURL] ∨
     events = [Mkdir output_dir; Print (Error OSError)] ∨
     ∃ tweet_id,
       extract_tweet_id url = Some tweet_id ∧
       ((∃ e, events = [Mkdir output_dir; Print FetchingTweetData;
                        ApiGet (bearer_token self) tweet_id;
                        Print (Error e)]) ∨
        ∃ tweet_data delivered ending,
          api_answers tweet_id tweet_data ∧
          events = [Mkdir output_dir; Print FetchingTweetData;
                    ApiGet (bearer_token self) tweet_id] ++
                   delivered ++ ending ∧
          deliver_events
            (path_join output_dir (output_name tweet_id (strftime_now env)))
            (select_variant tweet_data) delivered ∧
          (ending = [] ∨ ∃ e, ending = [Print (Error e)]))).
Proof.
  destruct (download_video self url output_dir w) as [r w'] eqn:Hrun.
  cbn [snd].
  apply download_video_cases in Hrun
    as [(Hid & _ & ->)|[(tweet_id & _ & _ & _ & ->)|
        [(tweet_id & e & Hid & _ & _ & _ & ->)|
         (tweet_id & tweet_data & r1 & w2 & Hid & _ & Hapi & Hdel & Hr)]]].
  - exists [Print InvalidURL]. split; [done|]. by left.
  - exists [Mkdir output_dir; Print (Error OSError)].
    split; [|by right; left]. cbn [print at_mkdir log].
    by rewrite <- app_assoc.
  - eexists. split; [|right; right; exists tweet_id; split; [done|];
                      left; by exists e].
    cbn [print at_selection log]. by rewrite <- app_assoc.
  - destruct (deliver_log tweet_id output_dir (select_variant tweet_data)
                (at_selection self tweet_id output_dir w))
      as (delivered & Hlog & Hshape).
    rewrite Hdel in Hlog. cbn [snd at_selection log] in Hlog.
    destruct Hr as [(b & _ & _ & ->)|(e & _ & _ & ->)].
    + eexists. split; [|right; right; exists tweet_id; split; [done|]; right;
                        exists tweet_data, delivered, []; eauto 10].
      rewrite Hlog. by rewrite app_nil_r, <- !app_assoc.
    + eexists. split; [|right; right; exists tweet_id; split; [done|]; right;
                        exists tweet_data, delivered, [Print (Error e)];
                        eauto 10].
      cbn [print log]. rewrite Hlog. by rewrite <- !app_assoc.
Qed.

(** ** Success *)



(** ** What a run leaves on disk *)





(** ** More on the selection *)

Lemma next_video_cases (media : list media_obj) :
  next_video media = Returns None ∧ Forall typed_other media ∨
  (∃ m, next_video media = Returns (Some m) ∧ first_video media m) ∨
  (∃ before m after,
     media = before ++ m :: after ∧ Forall typed_other before ∧
     m_type m = None ∧ next_video media = Raises (KeyError (lit "type"))).
Proof.
  induction media as [|x media IH]; [left; by split|].
  cbn [next_video]. destruct (m_type x) as [t|] eqn:Ht.
  2:{ right. right. by exists [], x, media. }
  destruct (is_video_type t) eqn:Hvideo.
  { right. left. exists x. split; [done|]. exists [], media.
    split; [done|]. split; [done|].
    apply is_video_type_true in Hvideo as [-> | ->]; [by left|by right]. }
  assert (typed_other x) as Hx.
  { exists t. split; [done|].
    split; intros ->; discriminate Hvideo. }
  destruct IH as [[-> Hall]|[(m & -> & before & after & -> & Hb & Hm)|
                  (before & m & after & -> & Hb & Hm & ->)]].
  - left. split; [done|by constructor].
  - right. left. exists m. split; [done|].
    exists (x :: before), after. split; [done|]. split; [by constructor|done].
  - right. right. exists (x :: before), m, after.
    split; [done|]. split; [by constructor|done].
Qed.

(** X7. A URL is selected only from an mp4 variant: whenever the selection
    ends with a URL, the reply has a media list, its first video-typed entry
    has variants, and the URL is that of a variant of content type
    "video/mp4" whose bit rate no other mp4 variant of the entry exceeds. *)
Theorem selected_is_best_mp4 tweet_data video_url :
  select_variant tweet_data = Selected video_url →
  ∃ media video_media variants best,
    has_media tweet_data media ∧
    first_video media video_media ∧
    m_variants video_media = Some variants ∧
    In best variants ∧
    v_content_type best = Some (lit "video/mp4") ∧
    v_url best = Some video_url ∧
    ∀ v, In v variants → v_content_type v = Some (lit "video/mp4") →
         default 0 (v_bit_rate v) ≤ default 0 (v_bit_rate best).
Proof.
  unfold select_variant.
  destruct (tw_includes tweet_data) as [inc|] eqn:Hi; [|done].
  destruct (inc_media inc) as [media|] eqn:Hm; [|done].
  destruct (next_video_cases media)
    as [[-> _]|[(m & -> & Hfirst)|(? & ? & ? & _ & _ & _ & ->)]]; try done.
  destruct (m_variants m) as [variants|] eqn:Hv; [|done].
  destruct (List.filter is_mp4 variants) as [|v rest] eqn:Hfilter; [done|].
  destruct (max_scan_spec bit_rate_key v rest)
    as (before & after & Heq & Hb & Ha).
  set (best := max_scan bit_rate_key v rest) in *.
  destruct (v_url best) as [u|] eqn:Hu; [|done].
  intros [= <-].
  assert (∀ x, In x (v :: rest) ↔
               In x variants ∧ v_content_type x = Some (lit "video/mp4"))
    as Hmp4.
  { intros x. rewrite <- Hfilter, filter_In. unfold is_mp4.
    by rewrite bool_decide_eq_true. }
  assert (In best (v :: rest)) as Hin
    by (rewrite Heq; apply in_elt).
  apply Hmp4 in Hin as [Hin Hct].
  exists media, m, variants, best.
  repeat split; try done; [by exists inc|].
  intros x Hx Hxt.
  assert (In x (v :: rest)) as Hx' by (by apply Hmp4).
  rewrite Heq in Hx'. apply in_app_or in Hx' as [Hx'|[<-|Hx']].
  - rewrite Forall_forall in Hb. apply list_elem_of_In, Hb in Hx'.
    unfold bit_rate_key in Hx'. unfold default. simpl. lia.
  - done.
  - rewrite Forall_forall in Ha. apply list_elem_of_In, Ha in Hx'. done.
Qed.

(** X8. Only the first video-typed entry counts: two replies whose media
    lists have the same first video-typed entry end the selection the same
    way, whatever comes after it.  There is no fall-back to a later
    entry. *)
Theorem selection_reads_first_video
    tweet_data tweet_data' media media' video_media :
  has_media tweet_data media →
  has_media tweet_data' media' →
  first_video media video_media →
  first_video media' video_media →
  select_variant tweet_data = select_variant tweet_data'.
Proof.
  intros (inc & Hi & Hm) (inc' & Hi' & Hm')
    Hf%next_video_first Hf'%next_video_first.
  unfold select_variant. by rewrite Hi, Hm, Hi', Hm', Hf, Hf'.
Qed.

(** X9. A media entry without a [type] key that comes before any
    video-typed entry stops the run with a [KeyError], even when a proper
    video entry follows: the operation prints the error and returns
    [False]. *)
Theorem untyped_entry_is_key_error
    self url output_dir tweet_id tweet_data media before m after w :
  has_media tweet_data media →
  media = before ++ m :: after →
  Forall typed_other before →
  m_type m = None →
  select_variant tweet_data = Failed (KeyError (lit "type")) ∧
  (extract_tweet_id url = Some tweet_id →
   mkdir_refused env output_dir = false →
   api_answers tweet_id tweet_data →
   download_video self url output_dir w =
   (Returns false,
    print (Error (KeyError (lit "type")))
      (at_selection self tweet_id output_dir w))).
Proof.
  intros (inc & Hi & Hm) -> Hb Ht.
  assert (next_video (before ++ m :: after) = Raises (KeyError (lit "type")))
    as Hnext.
  { clear Hm. induction Hb as [|x l (t & Hx & H1 & H2) _ IH]; simpl.
    - by rewrite Ht.
    - rewrite Hx. destruct (is_video_type t) eqn:E; [|done].
      apply is_video_type_true in E. tauto. }
  assert (select_variant tweet_data = Failed (KeyError (lit "type"))) as Hsel.
  { unfold select_variant. by rewrite Hi, Hm, Hnext. }
  split; [done|]. intros Hid Hdir Hapi.
  by rewrite (download_video_delivers _ _ _ _ _ _ Hid Hdir Hapi), Hsel.
Qed.

(** ** Network requests and messages *)

Lemma requests_delivered file chosen delivered :
  deliver_events file chosen delivered →
  requests delivered = [] ∧ (∀ video_url, chosen ≠ Selected video_url) ∨
  ∃ video_url, chosen = Selected video_url ∧
               requests delivered = [VideoGet video_url].
Proof.
  destruct chosen as [| | |e|video_url]; cbn [deliver_events];
    try (intros ->; by left).
  intros (transfer & ending & -> & HP & Hend). right.
  exists video_url. split; [done|].
  change (requests (AddTask :: VideoGet video_url :: transfer ++ ending))
    with (VideoGet video_url :: requests (transfer ++ ending)).
  rewrite requests_app, (requests_stream _ _ HP).
  by destruct Hend as [-> | ->].
Qed.

(** X10. No request is repeated.  A run sends nothing when it has no
    identifier or cannot make the directory; otherwise it sends one request
    to the API, with the token and the extracted identifier, and after it at
    most one to the video host, for the URL selected from the reply. *)
Theorem requests_at_most_once self url output_dir w :
  ∃ events,
    log (download_video self url output_dir w).2 = log w ++ events ∧
    (requests events = [] ∨
     ∃ tweet_id,
       extract_tweet_id url = Some tweet_id ∧
       (requests events = [ApiGet (bearer_token self) tweet_id] ∨
        ∃ tweet_data video_url,
          api_answers tweet_id tweet_data ∧
          select_variant tweet_data = Selected video_url ∧
          requests events =
            [ApiGet (bearer_token self) tweet_id; VideoGet video_url])).
Proof.
  destruct (download_video_log self url output_dir w)
    as (events & Hlog & Hshape).
  exists events. split; [done|].
  destruct Hshape as [[_ ->]|[->|(tweet_id & Hid & Hshape)]];
    [by left|by left|].
  right. exists tweet_id. split; [done|].
  destruct Hshape as [[e ->]|
    (tweet_data & delivered & ending & Hapi & -> & Hdel & Hend)];
    [by left|].
  assert (requests ending = []) as Hending
    by (by destruct Hend as [->|[e ->]]).
  change (requests ([Mkdir output_dir; Print FetchingTweetData;
                     ApiGet (bearer_token self) tweet_id] ++
                    delivered ++ ending))
    with (ApiGet (bearer_token self) tweet_id ::
          requests (delivered ++ ending)).
  rewrite requests_app, Hending, app_nil_r.
  destruct (requests_delivered _ _ _ Hdel) as [[-> _]|(u & Hsel & ->)];
    [by left|].
  right. by exists tweet_data, u.
Qed.



(** ** More on the extractor and on file names *)

Lemma user_at_no_host (s : str) : strip_host s = None → user_at s = None.
Proof. unfold user_at. by intros ->. Qed.

(** X12. Round trip: from a link built in the usual way around an
    identifier (scheme and [www.] or [mobile.] optional, either host, any
    user name, anything after the digits that is not a digit) the
    extractor returns that identifier. *)
Theorem usual_link_round_trip (pre h user digits post : str) :
  In pre usual_prefixes →
  is_host h →
  user ≠ [] → all_of is_word user →
  digits ≠ [] → all_of is_digit digits →
  ends_run is_digit post →
  extract_tweet_id
    (pre ++ h ++ lit ".com/" ++ user ++ lit "/status/" ++ digits ++ post)
  = Some digits.
Proof.
  intros Hpre Hh Hu Hw Hd Hds Hpost.
  set (s := h ++ lit ".com/" ++ user ++ lit "/status/" ++ digits ++ post).
  assert (re_match pattern_user s = Some (Some digits)) as Hmatch.
  { rewrite re_match_user, (user_at_shape s digits post).
    - by rewrite take_while_ended, app_nil_r.
    - by exists h, user. }
  assert (∀ c s', c ≠ 116%N → c ≠ 120%N → strip_host (c :: s') = None)
    as Hother.
  { intros c s' H1 H2. unfold strip_host.
    change (strip_prefix (lit "twitter") (c :: s'))
      with (if (116 =? c)%N then strip_prefix (lit "witter") s' else None).
    change (strip_prefix (lit "x") (c :: s'))
      with (if (120 =? c)%N then Some s' else None).
    destruct (N.eqb_spec 116 c); [done|].
    destruct (N.eqb_spec 120 c); done. }
  assert (∀ c s', c ≠ 119%N → strip_host (116%N :: c :: s') = None) as Htee.
  { intros c s' H1. unfold strip_host.
    change (strip_prefix (lit "twitter") (116%N :: c :: s'))
      with (if (119 =? c)%N then strip_prefix (lit "itter") s' else None).
    by destruct (N.eqb_spec 119 c). }
  unfold extract_tweet_id, patterns, first_group.
  rewrite (re_search_leftmost pattern_user pre s (Some digits)); [done| |done].
  intros p1 p2 Heq Hne.
  enough (strip_host (p2 ++ s) = None) as Hs
    by (by rewrite re_match_user, (user_at_no_host _ Hs)).
  unfold usual_prefixes in Hpre. cbn [In] in Hpre.
  repeat (destruct Hpre as [<-|Hpre]); [..|done];
    vm_compute in Heq;
    repeat (destruct p1 as [|? p1];
            [cbn [app] in Heq; subst p2;
             first [done | by apply Htee | by apply Hother]
            |injection Heq as <- Heq]);
    by destruct p1.
Qed.

(** X13. In one directory, the output path tells the identifier and the
    time stamp apart: two runs write to the same path only if they have the
    same identifier and the same time stamp (time stamps all have the
    length of the [strftime] format). *)
Theorem output_path_injective (output_dir tweet_id tweet_id' ts ts' : str) :
  length ts = length ts' →
  path_join output_dir (output_name tweet_id ts) =
  path_join output_dir (output_name tweet_id' ts') →
  tweet_id = tweet_id' ∧ ts = ts'.
Proof.
  intros Hlen. unfold path_join, output_name.
  intros H. do 3 apply app_inv_head in H.
  apply app_inj_1 in H as [-> H].
  - apply app_inv_head in H. apply app_inj_1 in H as [-> _]; done.
  - apply (f_equal length) in H. rewrite !length_app in H.
    change (length (lit "_")) with 1%nat in H.
    change (length (lit ".mp4")) with 4%nat in H. lia.
Qed.

Lemma literal_has_no_separator (l : str) (c : N) :
  forallb (λ x, negb (x =? 47)%N && negb (x =? 92)%N) l = true →
  c ∈ l → c ≠ 47%N ∧ c ≠ 92%N.
Proof.
  rewrite forallb_forall. intros Hall Hc%list_elem_of_In.
  apply Hall in Hc. apply andb_true_iff in Hc as [H1 H2].
  split; intros ->; done.
Qed.

(** X14. The output file lies directly in the output directory: the name
    built from an extracted identifier and a time stamp of digits and
    underscores holds no slash and no backslash. *)
Theorem output_name_is_flat (url tweet_id ts : str) :
  extract_tweet_id url = Some tweet_id →
  Forall (λ c, is_digit c = true ∨ c = 95%N) ts →
  ∀ c, c ∈ output_name tweet_id ts → c ≠ 47%N ∧ c ≠ 92%N.
Proof.
  intros [_ Hid]%extract_tweet_id_run Hts c.
  unfold output_name. rewrite !elem_of_app.
  unfold all_of in Hid. rewrite Forall_forall in Hid, Hts.
  intros [Hc|[Hc|[Hc|[Hc|Hc]]]].
  - by apply (literal_has_no_separator (lit "twitter_video_")).
  - apply Hid in Hc. split; intros ->; done.
  - by apply (literal_has_no_separator (lit "_")).
  - apply Hts in Hc as [Hc| ->]; [|done]. split; intros ->; done.
  - by apply (literal_has_no_separator (lit ".mp4")).
Qed.

(** ** The progress bar *)

Lemma stream_to_file_run video_url file response n w :
  video env video_url = Some response →
  content_length response = Some (Numeric n) →
  0 < n →
  open_refused env file = false →
  (∀ held, write_refused env file held = false) →
  log (stream_to_file video_url file w).2 =
  log w ++ [VideoGet video_url; Open file] ++
  expected_events file n (iter_content response 8192).
Proof.
  intros Hv Hcl Hn Hopen Hwrite.
  unfold stream_to_file.
  unfold bind at 1. unfold emit at 1. rewrite Hv.
  unfold bind at 1. unfold total_size_of. rewrite Hcl. unfold ret at 1.
  unfold bind at 1. unfold file_open, bind at 1, emit at 1.
  cbn [dirs files log]. rewrite Hopen. cbn [dirs files log].
  destruct (Z.eqb_spec n 0) as [->|_]; [lia|].
  unfold bind.
  rewrite (write_chunks_run file n 0 _ []);
    [|lia|lia|done|apply lookup_insert_eq].
  unfold expected_events.
  destruct (broken response); cbn [snd log];
    by rewrite <- !app_assoc.
Qed.

Lemma progress_of_written file (value : nat → Z) (chunks : list (list byte)) :
  progress_of
    (mjoin (imap (λ i data, [Write file data; Update (value i)]) chunks)) =
  imap (λ i _, value i) chunks.
Proof.
  revert value. induction chunks as [|data rest IH]; intros value; [done|].
  rewrite !imap_cons. cbn [mjoin list_join].
  unfold progress_of in *. rewrite omap_app. cbn [omap list_omap app].
  f_equal. apply (IH (value ∘ S)).
Qed.

Lemma bytes_so_far_mono (chunks : list (list byte)) (i j : nat) :
  (i ≤ j)%nat → bytes_so_far chunks i ≤ bytes_so_far chunks j.
Proof.
  intros Hij. unfold bytes_so_far.
  assert (take (S i) chunks `prefix_of` take (S j) chunks) as [k Hk].
  { replace (S i) with (S i `min` S j)%nat by lia.
    rewrite <- take_take. apply prefix_take. }
  rewrite Hk, concat_app, length_app. lia.
Qed.

Lemma bytes_so_far_total (chunks : list (list byte)) (i : nat) :
  bytes_so_far chunks i ≤ Z.of_nat (length (concat chunks)).
Proof.
  unfold bytes_so_far.
  destruct (prefix_take chunks (S i)) as [k Hk].
  rewrite Hk at 2. rewrite concat_app, length_app. lia.
Qed.

(** X15. When the body is not longer than the [content-length] says, the
    progress bar is only ever set to whole numbers from 0 to 100, it never
    goes back, and it ends on 100 when the body has exactly the announced
    length. *)
Theorem progress_is_a_percentage video_url file response n w :
  video env video_url = Some response →
  content_length response = Some (Numeric n) →
  0 < n →
  Z.of_nat (length (body response)) ≤ n →
  open_refused env file = false →
  (∀ held, write_refused env file held = false) →
  ∃ values,
    progress_of (log (stream_to_file video_url file w).2) =
      progress_of (log w) ++ values ∧
    Forall (λ v, 0 ≤ v ≤ 100) values ∧
    (∀ i j vi vj,
       (i ≤ j)%nat → values !! i = Some vi → values !! j = Some vj →
       vi ≤ vj) ∧
    (Z.of_nat (length (body response)) = n → last values = Some 100).
Proof.
  intros Hv Hcl Hn Hlen Hopen Hwrite.
  set (chunks := iter_content response 8192).
  assert (concat chunks = body response) as Hcat
    by (apply concat_chunks_of; lia).
  exists (imap (λ i _, (100 * bytes_so_far chunks i) `div` n) chunks).
  split; [|split; [|split]].
  - rewrite (stream_to_file_run _ _ _ _ _ Hv Hcl Hn Hopen Hwrite).
    fold chunks. unfold progress_of at 1. rewrite !omap_app.
    cbn [omap list_omap app]. f_equal.
    apply (progress_of_written file
             (λ i, (100 * bytes_so_far chunks i) `div` n)).
  - apply Forall_forall. intros v (i & Hi)%list_elem_of_lookup_1.
    apply list_lookup_imap_Some in Hi as (c & _ & ->).
    pose proof (bytes_so_far_nonneg chunks i).
    pose proof (bytes_so_far_total chunks i) as Htotal.
    rewrite Hcat in Htotal. split.
    + apply Z.div_pos; lia.
    + trans ((100 * n) `div` n); [apply Z.div_le_mono; lia|].
      by rewrite Z.div_mul by lia.
  - intros i j vi vj Hij Hi Hj.
    apply list_lookup_imap_Some in Hi as (ci & _ & ->).
    apply list_lookup_imap_Some in Hj as (cj & _ & ->).
    pose proof (bytes_so_far_mono chunks i j Hij).
    apply Z.div_le_mono; lia.
  - intros Heq. rewrite last_lookup, length_imap, list_lookup_imap.
    assert (chunks ≠ []) as Hne.
    { intros E. rewrite E in Hcat. simpl in Hcat.
      rewrite <- Hcat in Heq. simpl in Heq. lia. }
    destruct (chunks !! Init.Nat.pred (length chunks)) as [c|] eqn:Hlast.
    2:{ apply lookup_ge_None in Hlast. destruct chunks; [done|].
        simpl in Hlast. lia. }
    cbn [fmap option_fmap option_map]. f_equal.
    unfold bytes_so_far. rewrite take_ge by lia.
    rewrite Hcat, Heq. apply Z.div_mul. lia.
Qed.

Lemma extract_tweet_id_present (url : str) :
  has_shape user_shape url ∨ has_shape web_shape url →
  ∃ tweet_id, extract_tweet_id url = Some tweet_id.
Proof.
  intros Hshape. unfold extract_tweet_id, patterns, first_group.
  destruct (re_search pattern_user url) as [m|] eqn:E1.
  { apply search_user_found in E1 as (? & d & ? & -> & ?). by exists d. }
  destruct (re_search pattern_web url) as [m|] eqn:E2.
  { apply search_web_found in E2 as (? & d & ? & -> & ?). by exists d. }
  apply search_user_none in E1. apply search_web_none in E2. tauto.
Qed.

(** X16. The extractor is not anchored and does not look at what surrounds
    a link: if a string yields an identifier, so does any string that
    contains it (the identifier found may be another one). *)
Theorem extract_tweet_id_unanchored (pre url post tweet_id : str) :
  extract_tweet_id url = Some tweet_id →
  ∃ tweet_id', extract_tweet_id (pre ++ url ++ post) = Some tweet_id'.
Proof.
  intros Hid. apply extract_tweet_id_present.
  destruct (extract_tweet_id_found _ _ Hid)
    as [(pre0 & post0 & Hs & _)|(pre0 & post0 & Hs & _)]; [left|right];
    exists (pre ++ pre0), tweet_id, (post0 ++ post).
  - destruct Hs as (h & user & ? & ? & ? & ? & ? & ->).
    exists h, user. repeat split; try done.
    by rewrite <- !app_assoc.
  - destruct Hs as (h & ? & ? & ? & ->).
    exists h. repeat split; try done.
    by rewrite <- !app_assoc.
Qed.

End TVidder.

(** ** The theorems at concrete inputs *)

Lemma extract_tweet_id_spec_witness :
  user_shape ascii_only ascii_only (lit "x.com/user/status/42?s=20")
    [] (lit "42") (lit "?s=20") ∧
  extract_tweet_id ascii_only ascii_only (lit "x.com/user/status/42?s=20")
  = Some (lit "42").
Proof.
  assert (user_shape ascii_only ascii_only (lit "x.com/user/status/42?s=20")
            [] (lit "42") (lit "?s=20")) as Hshape.
  { exists (lit "x"), (lit "user").
    repeat split; try done; try (by right); repeat constructor. }
  split; [exact Hshape|].
  apply (proj1 (extract_tweet_id_spec ascii_only ascii_only
                  (lit "x.com/user/status/42?s=20")) [] (lit "42") (lit "?s=20")).
  - exact Hshape.
  - reflexivity.
  - intros pre' digits' post' _. simpl. lia.
Defined.

Lemma extract_tweet_id_digits_witness :
  extract_tweet_id ascii_only ascii_only (lit "https://twitter.com/i/web/status/987")
  = Some (lit "987") ∧
  lit "987" ≠ [] ∧ all_of (is_digit ascii_only) (lit "987") ∧
  ∀ c, c ∈ lit "987" → c ≠ 47%N ∧ c ≠ 92%N ∧ c ≠ 46%N.
Proof.
  split; [reflexivity|].
  apply (extract_tweet_id_digits ascii_only ascii_only
           (lit "https://twitter.com/i/web/status/987")).
  reflexivity.
Defined.

Lemma select_variant_best_witness :
  has_media (tweet_of [photo; video_ABC]) [photo; video_ABC] ∧
  first_video [photo; video_ABC] video_ABC ∧
  select_variant (tweet_of [photo; video_ABC]) = Selected (lit "B").
Proof.
  assert (has_media (tweet_of [photo; video_ABC]) [photo; video_ABC]) as Hm
    by (by eexists).
  assert (first_video [photo; video_ABC] video_ABC) as Hf.
  { exists [photo], []. split; [done|]. split; [|by left].
    constructor; [|constructor]. by exists (lit "photo"). }
  split; [exact Hm|]. split; [exact Hf|].
  apply (select_variant_best ascii_only ascii_only (env_of None None)
           {| bearer_token := lit "token" |} [] [] []
           (tweet_of [photo; video_ABC])
           [photo; video_ABC] video_ABC [variant_A; variant_B; variant_C]
           start Hm Hf eq_refl).
  reflexivity.
Defined.

Lemma select_variant_no_media_witness :
  download_video ascii_only ascii_only (env_of (ok tweet_bare) None)
    {| bearer_token := lit "token" |} (lit "x.com/user/status/42")
    (lit "downloads") start =
  (Returns false,
   print NoMediaFound
     (at_selection {| bearer_token := lit "token" |} (lit "42")
        (lit "downloads") start)).
Proof.
  apply (select_variant_no_media ascii_only ascii_only
           (env_of (ok tweet_bare) None) {| bearer_token := lit "token" |}
           (lit "x.com/user/status/42") (lit "downloads") (lit "42")
           tweet_bare start).
  - by left.
  - reflexivity.
  - reflexivity.
  - by eexists.
Defined.

Lemma select_variant_no_variants_key_witness :
  first_video [photo; gif_bare; video_ABC] gif_bare ∧
  select_variant (tweet_of [photo; gif_bare; video_ABC]) = NoVideo.
Proof.
  assert (first_video [photo; gif_bare; video_ABC] gif_bare) as Hf.
  { exists [photo], [video_ABC]. split; [done|]. split; [|by right].
    constructor; [|constructor]. by exists (lit "photo"). }
  split; [exact Hf|].
  apply (select_variant_no_variants_key ascii_only ascii_only
           (env_of None None) {| bearer_token := lit "token" |} [] []
           [] (tweet_of [photo; gif_bare; video_ABC])
           [photo; gif_bare; video_ABC] gif_bare start).
  - by eexists.
  - exact Hf.
  - reflexivity.
Defined.


Lemma stream_without_length_witness :
  stream_to_file
    (env_of None (Some {| content_length := None; body := zeros 20;
                          broken := false |}))
    (lit "B") (lit "out.mp4") start =
  (Returns (),
   {| dirs := ∅;
      files := <[lit "out.mp4" := zeros 20]> ∅;
      log := [VideoGet (lit "B"); Open (lit "out.mp4");
              Write (lit "out.mp4") (zeros 20)] |}).
Proof.
  apply (proj2 (stream_without_length
                  (env_of None (Some {| content_length := None;
                                        body := zeros 20; broken := false |}))
                  (lit "B") (lit "out.mp4")
                  {| content_length := None; body := zeros 20;
                     broken := false |} start eq_refl (or_introl eq_refl)));
    reflexivity.
Defined.


Lemma invalid_url_exit_witness :
  (main ascii_only ascii_only (env_of None None)
     (lit "https://example.com/video/42") None start).1 = Exit 1 ∧
  files (main ascii_only ascii_only (env_of None None)
           (lit "https://example.com/video/42") None start).2 = ∅.
Proof.
  destruct (invalid_url_exit ascii_only ascii_only (env_of None None)
              (lit "https://example.com/video/42") None start)
    as (Hexit & Hfiles & _).
  - reflexivity.
  - by split.
Defined.

Lemma directory_before_request_witness :
  lit "downloads" ∈
  dirs (download_video ascii_only ascii_only (env_of None None)
          {| bearer_token := lit "token" |} (lit "x.com/user/status/42")
          (lit "downloads") start).2.
Proof.
  apply (directory_before_request ascii_only ascii_only (env_of None None)
           {| bearer_token := lit "token" |} (lit "x.com/user/status/42")
           (lit "downloads") (lit "42") start); reflexivity.
Defined.

(** ** Sample runs *)

Example extract_with_query :
  extract_tweet_id ascii_only ascii_only
    (lit "https://twitter.com/some_user/status/1234567890?s=20")
  = Some (lit "1234567890").
Proof. reflexivity. Qed.

(** The username-qualified pattern is searched over the whole string
    before the web pattern is tried at all. *)
Example extract_user_pattern_first :
  extract_tweet_id ascii_only ascii_only
    (lit "x.com/i/web/status/5 twitter.com/u/status/7")
  = Some (lit "7").
Proof. reflexivity. Qed.

Example extract_web_only :
  extract_tweet_id ascii_only ascii_only (lit "https://x.com/i/web/status/5")
  = Some (lit "5").
Proof. reflexivity. Qed.

Example extract_no_user :
  extract_tweet_id ascii_only ascii_only (lit "https://x.com//status/5") = None.
Proof. reflexivity. Qed.

Example extract_case_sensitive :
  extract_tweet_id ascii_only ascii_only (lit "https://X.COM/user/status/5")
  = None.
Proof. reflexivity. Qed.

(** A tie on the bit rate goes to the earlier variant, and a variant
    without bit rate counts as 0. *)
Example select_tie :
  select_variant
    (tweet_of
       [ {| m_type := Some (lit "video");
            m_variants := Some
              [ {| v_content_type := Some (lit "video/mp4");
                   v_bit_rate := None; v_url := Some (lit "none") |};
                {| v_content_type := Some (lit "video/mp4");
                   v_bit_rate := Some 832000; v_url := Some (lit "first") |};
                {| v_content_type := Some (lit "video/mp4");
                   v_bit_rate := Some 832000; v_url := Some (lit "second") |} ]
         |} ])
  = Selected (lit "first").
Proof. reflexivity. Qed.

Example select_photos_only :
  select_variant (tweet_of [photo; photo]) = NoVideo.
Proof. reflexivity. Qed.

(** A complete successful run: exit status 0, and the events in order. *)
Example run_to_the_end :
  let file := lit "downloads/twitter_video_42_20240101_120000.mp4" in
  let result :=
    main ascii_only ascii_only
      (env_of (ok (tweet_of [photo; video_ABC]))
         (Some {| content_length := Some (Numeric 10); body := zeros 10;
                  broken := false |}))
      (lit "https://x.com/user/status/42") None start in
  result.1 = Exit 0 ∧
  log result.2 =
    [Mkdir (lit "downloads"); Print FetchingTweetData;
     ApiGet (lit "token") (lit "42"); AddTask; VideoGet (lit "B");
     Open file; Write file (zeros 10); Update 100;
     Print (DownloadedTo file)] ∧
  files result.2 !! file = Some (zeros 10).
Proof. vm_compute. done. Qed.

(** A stream that breaks after its first chunk leaves that chunk on disk,
    and the run reports failure. *)
Example run_broken_stream :
  let file := lit "downloads/twitter_video_42_20240101_120000.mp4" in
  let result :=
    main ascii_only ascii_only
      (env_of (ok (tweet_of [video_ABC]))
         (Some {| content_length := Some (Numeric 40); body := zeros 10;
                  broken := true |}))
      (lit "https://x.com/user/status/42") None start in
  result.1 = Exit 1 ∧
  files result.2 !! file = Some (zeros 10) ∧
  last (log result.2) = Some (Print (Error RequestException)).
Proof. vm_compute. done. Qed.

(** ** The further properties at concrete inputs *)





Lemma selected_is_best_mp4_witness :
  ∃ best,
    In best [variant_A; variant_B; variant_C] ∧
    v_content_type best = Some (lit "video/mp4") ∧
    v_url best = Some (lit "B").
Proof.
  destruct (selected_is_best_mp4 (tweet_of [photo; video_ABC]) (lit "B")
              eq_refl)
    as (media & m & variants & best & (inc & [= <-] & [= <-]) &
        Hfirst & Hv & Hin & Hct & Hu & _).
  destruct Hfirst as (before & after & Hmedia & Hbefore & Hm).
  assert (m = video_ABC) as ->.
  { destruct before as [|x before]; [by injection Hmedia as <-|].
    injection Hmedia as <- Hmedia.
    destruct before as [|y before]; [by injection Hmedia as <-|].
    injection Hmedia as _ Hmedia. by destruct before. }
  injection Hv as <-. by exists best.
Defined.

Lemma selection_reads_first_video_witness :
  select_variant (tweet_of [photo; gif_bare; video_ABC]) =
  select_variant (tweet_of [gif_bare]).
Proof.
  apply (selection_reads_first_video
           (tweet_of [photo; gif_bare; video_ABC]) (tweet_of [gif_bare])
           [photo; gif_bare; video_ABC] [gif_bare] gif_bare).
  - by eexists.
  - by eexists.
  - exists [photo], [video_ABC]. split; [done|]. split; [|by right].
    constructor; [|constructor]. by exists (lit "photo").
  - exists [], []. split; [done|]. split; [constructor|by right].
Defined.

Lemma untyped_entry_is_key_error_witness :
  select_variant
    (tweet_of [photo; {| m_type := None; m_variants := None |}; video_ABC])
  = Failed (KeyError (lit "type")).
Proof.
  apply (untyped_entry_is_key_error ascii_only ascii_only (env_of None None)
           caller [] [] []
           (tweet_of [photo; {| m_type := None; m_variants := None |};
                      video_ABC])
           [photo; {| m_type := None; m_variants := None |}; video_ABC]
           [photo] {| m_type := None; m_variants := None |} [video_ABC]
           start).
  - by eexists.
  - done.
  - constructor; [|constructor]. by exists (lit "photo").
  - done.
Defined.

Lemma usual_link_round_trip_witness :
  extract_tweet_id ascii_only ascii_only
    (lit "https://mobile." ++ lit "twitter" ++ lit ".com/" ++ lit "some_user" ++
     lit "/status/" ++ lit "1234567890" ++ lit "?s=20")
  = Some (lit "1234567890").
Proof.
  apply (usual_link_round_trip ascii_only ascii_only
           (lit "https://mobile.") (lit "twitter") (lit "some_user")
           (lit "1234567890") (lit "?s=20")); try done.
  - unfold usual_prefixes. cbn [In]. tauto.
  - by left.
  - repeat constructor.
  - repeat constructor.
Defined.

Lemma output_path_injective_witness :
  lit "42" = lit "42" ∧ lit "20240101_120000" = lit "20240101_120000".
Proof.
  apply (output_path_injective downloads (lit "42") (lit "42")
           (lit "20240101_120000") (lit "20240101_120000")); reflexivity.
Defined.

Lemma output_name_is_flat_witness :
  Forall (λ c, c ≠ 47%N ∧ c ≠ 92%N)
    (output_name (lit "42") (lit "20240101_120000")).
Proof.
  apply Forall_forall.
  apply (output_name_is_flat ascii_only ascii_only link (lit "42")
           (lit "20240101_120000")).
  - reflexivity.
  - repeat constructor; (by left) || (by right).
Defined.

Lemma progress_is_a_percentage_witness :
  ∃ values,
    progress_of
      (log (stream_to_file
              (serving (Some (ten_bytes (Some (Numeric 10)) false)))
              (lit "B") file_42 start).2) = values ∧
    Forall (λ v, 0 ≤ v ≤ 100) values ∧ last values = Some 100.
Proof.
  destruct (progress_is_a_percentage
              (serving (Some (ten_bytes (Some (Numeric 10)) false)))
              (lit "B") file_42 (ten_bytes (Some (Numeric 10)) false) 10 start)
    as (values & Hlog & Hrange & _ & Hlast); try done.
  exists values. split; [exact Hlog|]. split; [exact Hrange|].
  by apply Hlast.
Defined.

Lemma extract_tweet_id_unanchored_witness :
  ∃ tweet_id,
    extract_tweet_id ascii_only ascii_only
      (lit "see " ++ lit "x.com/user/status/42" ++ lit " and more")
    = Some tweet_id.
Proof.
  apply (extract_tweet_id_unanchored ascii_only ascii_only
           (lit "see ") (lit "x.com/user/status/42") (lit " and more")
           (lit "42")).
  reflexivity.
Defined.
